(** * Socket message handlers: reader, writer, connection, plugin channel

    A shallow embedding of
    [packages/core/src/common/messaging/socket-message-handlers.ts]
    ([WebSocketMessageReader], [WebSocketMessageWriter]),
    [packages/core/src/common/messaging/connection.ts] ([createConnection]),
    [packages/core/src/node/messaging/launch.ts] and of the plugin connection
    ([PluginConnection], [PluginWebSocketChannel]).

    The TypeScript classes mutate their fields and call listeners. Here every
    method is a function from the state of its object to how the call
    completed (normally or by a thrown exception), the state afterwards and
    the calls it made to the outside, in order: for the reader these are the
    calls of the data callback and the events that [super.fireError] and
    [super.fireClose] fire; for the writer, its calls of [fireError].

    What lies outside the sources is a parameter: [JSON.parse] and
    [JSON.stringify], the socket and its [send]. The [fireError] that both
    classes inherit from the vscode-jsonrpc base classes reads the [message]
    property of a value that is not an [Error] before it notifies anyone, so
    it throws a [TypeError] on [undefined] and [null]; that is modelled, the
    rest of the base classes is not. A listener is taken to return normally
    and not to call back into the object that invokes it. *)

From Stdlib Require Import List Ascii String ZArith Lia Bool Arith.
From Stdlib Require Import DecimalString DecimalZ DecimalPos Permutation.
Import ListNotations.

Local Open Scope string_scope.
Local Open Scope list_scope.

(** ** JavaScript values that reach this code untyped *)

(** The socket reports errors as [any]/[unknown]. The code only stores such a
    value, tests it for truthiness and passes it on; this is the part of the
    value universe needed for that. [JsObject name message] is an [Error]-like
    object with the two fields the close handler sets. *)
Inductive unknown : Type :=
| JsUndefined
| JsNull
| JsBoolean (b : bool)
| JsNumber (z : Z)
| JsString (s : string)
| JsObject (name message : string).

(** [if (s)] on a string: every string but the empty one is truthy. *)
Definition truthy_string (s : string) : bool :=
  match s with
  | EmptyString => false
  | String _ _ => true
  end.

(** [if (v)] on an arbitrary value. *)
Definition truthy (v : unknown) : bool :=
  match v with
  | JsUndefined | JsNull => false
  | JsBoolean b => b
  | JsNumber z => negb (z =? 0)%Z
  | JsString s => truthy_string s
  | JsObject _ _ => true
  end.

(** [undefined] and [null]: the values no property can be read from. *)
Definition nullish (v : unknown) : bool :=
  match v with
  | JsUndefined | JsNull => true
  | _ => false
  end.

(** ['' + code] for an integral [number]. *)
Definition number_to_string (z : Z) : string :=
  NilZero.string_of_int (Z.to_int z).

Lemma number_to_string_inj z1 z2 :
  number_to_string z1 = number_to_string z2 -> z1 = z2.
Proof.
  unfold number_to_string. intros H.
  assert (N : forall z, NilZero.int_of_string (NilZero.string_of_int (Z.to_int z))
                        = Some (Z.to_int z)).
  { intros z. apply NilZero.isi; destruct z; cbn; try discriminate;
      intros E; injection E; apply DecimalPos.Unsigned.to_uint_nonnil. }
  apply DecimalZ.to_int_inj.
  pose proof (N z1) as E1. rewrite H, N in E1. now injection E1.
Qed.

(** Exceptions raised inside this layer. *)
Inductive exn : Type :=
| SyntaxError   (* JSON.parse on a text that is not JSON *)
| TypeError     (* calling [undefined]; reading a property of [undefined] or [null] *)
| ThrownValue (v : unknown).  (* anything thrown by a collaborator *)

(** How a call ends. [OutOfFuel] is the bounded model of a loop giving up; the
    termination lemmas below show that the code never ends that way. *)
Inductive Completion (A : Type) : Type :=
| Normal (a : A)
| Throw (e : exn)
| OutOfFuel.
Arguments Normal {A} a.
Arguments Throw {A} e.
Arguments OutOfFuel {A}.

(** [Array.prototype.pop]: the last element and the array without it. *)
Definition pop {A : Type} (l : list A) : option (A * list A) :=
  match rev l with
  | [] => None
  | x :: r => Some (x, rev r)
  end.

(** [array.splice(0, 0, x)]: insert at index 0. *)
Definition splice_front {A : Type} (x : A) (l : list A) : list A := x :: l.

(** ** Calls with effects

    A call takes the state of the object it is made on and returns how it
    completed, the state afterwards and the events it fired, in order. *)

#[projections(primitive)] Record Result (S E A : Type) : Type := mkResult {
  completion : Completion A;
  after : S;
  fired : list E
}.
Arguments mkResult {S E A}.
Arguments completion {S E A}.
Arguments after {S E A}.
Arguments fired {S E A}.

Definition Op (S E A : Type) : Type := S -> Result S E A.

Definition ret {S E A} (a : A) : Op S E A := fun s => mkResult (Normal a) s [].

(** Sequencing: a throw skips the rest, keeping the state and the events so far. *)
Definition bind {S E A B} (m : Op S E A) (k : A -> Op S E B) : Op S E B := fun s =>
  let r1 := m s in
  match completion r1 with
  | Normal a =>
      let r2 := k a (after r1) in
      mkResult (completion r2) (after r2) (fired r1 ++ fired r2)
  | Throw e => mkResult (Throw e) (after r1) (fired r1)
  | OutOfFuel => mkResult OutOfFuel (after r1) (fired r1)
  end.

Declare Scope op_scope.
Delimit Scope op_scope with op.
Notation "x <- m ;; k" := (bind m (fun x => k))
  (at level 61, m at next level, right associativity) : op_scope.
Notation "m ;; k" := (bind m (fun _ => k))
  (at level 61, right associativity) : op_scope.
Local Open Scope op_scope.

Definition throw {S E A} (e : exn) : Op S E A := fun s => mkResult (Throw e) s [].
Definition out_of_fuel {S E A} : Op S E A := fun s => mkResult OutOfFuel s [].
Definition emit {S E} (e : E) : Op S E unit := fun s => mkResult (Normal tt) s [e].
Definition get {S E} : Op S E S := fun s => mkResult (Normal s) s [].
Definition put {S E} (s : S) : Op S E unit := fun _ => mkResult (Normal tt) s [].

(** A call to an [async] function whose promise the caller does not await:
    the caller goes on, whether that promise is fulfilled or rejected. *)
Definition detached {S E A} (m : Op S E A) : Op S E unit := fun s =>
  let r := m s in
  mkResult
    match completion r with
    | OutOfFuel => OutOfFuel
    | _ => Normal tt
    end
    (after r) (fired r).


(** [try { body } catch (e) { handler }]. *)
Definition try_catch {S E A} (body : Op S E A) (handler : exn -> Op S E A)
  : Op S E A := fun s =>
  let r1 := body s in
  match completion r1 with
  | Throw e =>
      let r2 := handler e (after r1) in
      mkResult (completion r2) (after r2) (fired r1 ++ fired r2)
  | _ => r1
  end.

(** ** WebSocketMessageReader *)

Module Reader.
Section WithMessages.

(** The decoded message type and [JSON.parse] restricted to it; [None] is a
    thrown [SyntaxError]. *)
Variable Message : Type.
Variable JSON_parse : string -> option Message.

(** Data callbacks are function objects: the code compares them with [===],
    which is reference identity. *)
Variable DataCallback : Type.
Variable same_callback : DataCallback -> DataCallback -> bool.

Inductive State : Type := initial | listening | closed.

(** An entry of [events]: [{ message?: string, error?: unknown }]. *)
Record BufferedEvent : Type := mkEvent {
  message : option string;
  error : option unknown
}.

Record WebSocketMessageReader : Type := mkReader {
  state : State;
  callback : option DataCallback;
  events : list BufferedEvent
}.

(** What the reader does to the outside. *)
Inductive Emission : Type :=
| CallbackInvoked (cb : DataCallback) (data : Message)
| ErrorFired (e : unknown)       (* the error event of super.fireError(e) *)
| CloseFired.                    (* super.fireClose()  *)

Definition ReaderOp (A : Type) : Type := Op WebSocketMessageReader Emission A.

Definition get_state : ReaderOp State := fun r => mkResult (Normal (state r)) r [].
Definition get_callback : ReaderOp (option DataCallback) :=
  fun r => mkResult (Normal (callback r)) r [].
Definition get_events : ReaderOp (list BufferedEvent) :=
  fun r => mkResult (Normal (events r)) r [].
Definition set_state (s : State) : ReaderOp unit :=
  fun r => mkResult (Normal tt) (mkReader s (callback r) (events r)) [].
Definition set_callback (c : option DataCallback) : ReaderOp unit :=
  fun r => mkResult (Normal tt) (mkReader (state r) c (events r)) [].
Definition set_events (l : list BufferedEvent) : ReaderOp unit :=
  fun r => mkResult (Normal tt) (mkReader (state r) (callback r) l) [].

(** [new WebSocketMessageReader(socket)]. *)
Definition new_reader : WebSocketMessageReader := mkReader initial None [].

(** [const data = JSON.parse(message)]. *)
Definition parse (message : string) : ReaderOp Message :=
  match JSON_parse message with
  | Some data => ret data
  | None => throw SyntaxError
  end.

(** [this.callback!(data)]: the non-null assertion is erased at run time, so
    calling an unset callback raises. *)
Definition call_callback (data : Message) : ReaderOp unit :=
  cb <- get_callback ;;
  match cb with
  | Some f => emit (CallbackInvoked f data)
  | None => throw TypeError
  end.

Definition readMessage (message : string) : ReaderOp unit :=
  st <- get_state ;;
  match st with
  | initial =>
      evs <- get_events ;;
      set_events (splice_front (mkEvent (Some message) None) evs)
  | listening =>
      data <- parse message ;;
      call_callback data
  | closed => ret tt
  end.

(** [super.fireError(error)], inherited from [AbstractMessageReader]. Before
    it fires the error event it turns a value that is not an [Error] into one,
    reading [error.message]; on [undefined] and [null] that read throws and
    no event is fired. *)
Definition super_fireError (error : unknown) : ReaderOp unit :=
  if nullish error then throw TypeError else emit (ErrorFired error).

Definition fireError (error : unknown) : ReaderOp unit :=
  st <- get_state ;;
  match st with
  | initial =>
      evs <- get_events ;;
      set_events (splice_front (mkEvent None (Some error)) evs)
  | listening => super_fireError error
  | closed => ret tt
  end.

Definition fireClose : ReaderOp unit :=
  st <- get_state ;;
  match st with
  | initial =>
      evs <- get_events ;;
      set_events (splice_front (mkEvent None None) evs)
  | listening => emit CloseFired
  | closed => ret tt
  end ;;
  set_state closed.

(** The body of the replay loop after [pop]:
    [if (event.message) ... else if (event.error) ... else ...]. *)
Definition replay_event (event : BufferedEvent) : ReaderOp unit :=
  match message event with
  | Some m =>
      if truthy_string m then readMessage m
      else match error event with
           | Some e => if truthy e then fireError e else fireClose
           | None => fireClose
           end
  | None =>
      match error event with
      | Some e => if truthy e then fireError e else fireClose
      | None => fireClose
      end
  end.

(** [while (this.events.length !== 0) { const event = this.events.pop()!; ... }]
    with a bound on the number of iterations. *)
Fixpoint replay (fuel : nat) : ReaderOp unit :=
  evs <- get_events ;;
  match pop evs with
  | None => ret tt
  | Some (event, rest) =>
      match fuel with
      | O => out_of_fuel
      | S fuel' =>
          set_events rest ;;
          replay_event event ;;
          replay fuel'
      end
  end.

(** The handle returned by [listen]; it closes over [callback]. *)
Record Disposable : Type := mkDisposable { captured : DataCallback }.

Definition listen (callback : DataCallback) : ReaderOp Disposable :=
  st <- get_state ;;
  match st with
  | initial =>
      set_state listening ;;
      set_callback (Some callback) ;;
      evs <- get_events ;;
      replay (List.length evs)
  | _ => ret tt
  end ;;
  ret (mkDisposable callback).

(** [dispose: () => { if (this.callback === callback) this.callback = undefined; }] *)
Definition dispose (d : Disposable) : ReaderOp unit :=
  cb <- get_callback ;;
  match cb with
  | Some f =>
      if same_callback f (captured d) then set_callback None else ret tt
  | None => ret tt
  end.

(** The three subscriptions made by the constructor. *)
Definition socket_onMessage (message : string) : ReaderOp unit :=
  readMessage message.

Definition socket_onError (error : unknown) : ReaderOp unit :=
  fireError error.

Definition reconnect_error (code : Z) (reason : string) : unknown :=
  JsObject (number_to_string code)
    ("Error during socket reconnect: code = " ++ number_to_string code
       ++ ", reason = " ++ reason).

Definition socket_onClose (code : Z) (reason : string) : ReaderOp unit :=
  (if negb (code =? 1000)%Z
   then fireError (reconnect_error code reason)
   else ret tt) ;;
  fireClose.

(** What can happen to a reader: the socket emits an event, or the consumer
    calls [listen] or disposes a handle. *)
Inductive Action : Type :=
| SocketMessage (message : string)
| SocketError (error : unknown)
| SocketClose (code : Z) (reason : string)
| Listen (callback : DataCallback)
| Dispose (handle : Disposable).

Definition perform (a : Action) : ReaderOp unit :=
  match a with
  | SocketMessage m => socket_onMessage m
  | SocketError e => socket_onError e
  | SocketClose code reason => socket_onClose code reason
  | Listen cb => listen cb ;; ret tt
  | Dispose h => dispose h
  end.

(** A sequence of actions. An exception leaves through the caller of the
    action that raised it (the socket's event dispatch, or the consumer); the
    reader keeps the fields it had at the throw and later actions still
    reach it. *)
Fixpoint run (actions : list Action) (r : WebSocketMessageReader)
  : WebSocketMessageReader * list Emission :=
  match actions with
  | [] => (r, [])
  | a :: rest =>
      let r1 := perform a r in
      let '(r2, out) := run rest (after r1) in
      (r2, fired r1 ++ out)
  end.

(** *** Vocabulary of the statements *)

(** Buffered entries as the three handlers create them. *)
Definition message_entry (m : string) : BufferedEvent := mkEvent (Some m) None.
Definition error_entry (e : unknown) : BufferedEvent := mkEvent None (Some e).
Definition close_marker : BufferedEvent := mkEvent None None.

Definition is_close (e : Emission) : bool :=
  match e with
  | CloseFired => true
  | _ => false
  end.

(** How many times [super.fireClose] was called in a trace. *)
Definition close_count (out : list Emission) : nat :=
  List.length (filter is_close out).

(** What every call on the reader guarantees about the close event: it fires
    at most once in the call, the reader is [closed] once it fired, and a
    [closed] reader fires nothing and stays [closed]. *)
Definition closes_once {A} (res : Result WebSocketMessageReader Emission A)
    (r : WebSocketMessageReader) : Prop :=
  close_count (fired res) <= 1
  /\ (close_count (fired res) = 1 -> state (after res) = closed)
  /\ (state r = closed -> fired res = [] /\ state (after res) = closed).

(** Every data callback invocation in a trace went to [cb]. *)
Definition delivered_to (cb : DataCallback) (e : Emission) : Prop :=
  match e with
  | CallbackInvoked f _ => f = cb
  | _ => True
  end.

(** The reader has left [initial] and its callback slot holds [cb] or nothing. *)
Definition owned_by (cb : DataCallback) (r : WebSocketMessageReader) : Prop :=
  state r <> initial /\ (callback r = Some cb \/ callback r = None).

(** *** Basic facts about the queue *)

Lemma pop_nil (A : Type) : pop (@nil A) = None.
Proof. reflexivity. Qed.

Lemma pop_snoc (A : Type) (l : list A) (x : A) : pop (l ++ [x]) = Some (x, l).
Proof.
  unfold pop. rewrite rev_unit. now rewrite rev_involutive.
Qed.

Lemma pop_length (A : Type) (l rest : list A) (x : A) :
  pop l = Some (x, rest) -> List.length l = S (List.length rest).
Proof.
  unfold pop. intros H.
  destruct (rev l) as [|y r] eqn:E; [discriminate|].
  injection H as <- <-.
  rewrite <- (rev_involutive l), E. cbn.
  rewrite length_app, !length_rev. cbn. lia.
Qed.

(** *** The handlers, state by state *)

Lemma readMessage_initial c evs m :
  readMessage m (mkReader initial c evs)
  = mkResult (Normal tt) (mkReader initial c (message_entry m :: evs)) [].
Proof. reflexivity. Qed.

Lemma readMessage_listening_ok cb evs m d :
  JSON_parse m = Some d ->
  readMessage m (mkReader listening (Some cb) evs)
  = mkResult (Normal tt) (mkReader listening (Some cb) evs) [CallbackInvoked cb d].
Proof.
  intros H. unfold readMessage, bind, parse. cbn. now rewrite H.
Qed.

Lemma readMessage_listening_undecodable c evs m :
  JSON_parse m = None ->
  readMessage m (mkReader listening c evs)
  = mkResult (Throw SyntaxError) (mkReader listening c evs) [].
Proof.
  intros H. unfold readMessage, bind, parse. cbn. now rewrite H.
Qed.

Lemma readMessage_closed c evs m :
  readMessage m (mkReader closed c evs)
  = mkResult (Normal tt) (mkReader closed c evs) [].
Proof. reflexivity. Qed.

Lemma fireError_initial c evs e :
  fireError e (mkReader initial c evs)
  = mkResult (Normal tt) (mkReader initial c (error_entry e :: evs)) [].
Proof. reflexivity. Qed.

Lemma fireError_listening c evs e :
  nullish e = false ->
  fireError e (mkReader listening c evs)
  = mkResult (Normal tt) (mkReader listening c evs) [ErrorFired e].
Proof.
  intros H. unfold fireError, super_fireError, bind. cbn. now rewrite H.
Qed.

Lemma fireError_listening_nullish c evs e :
  nullish e = true ->
  fireError e (mkReader listening c evs)
  = mkResult (Throw TypeError) (mkReader listening c evs) [].
Proof.
  intros H. unfold fireError, super_fireError, bind. cbn. now rewrite H.
Qed.

Lemma truthy_not_nullish e : truthy e = true -> nullish e = false.
Proof. destruct e; cbn; congruence. Qed.

Lemma fireError_closed c evs e :
  fireError e (mkReader closed c evs)
  = mkResult (Normal tt) (mkReader closed c evs) [].
Proof. reflexivity. Qed.

Lemma fireClose_initial c evs :
  fireClose (mkReader initial c evs)
  = mkResult (Normal tt) (mkReader closed c (close_marker :: evs)) [].
Proof. reflexivity. Qed.

Lemma fireClose_listening c evs :
  fireClose (mkReader listening c evs)
  = mkResult (Normal tt) (mkReader closed c evs) [CloseFired].
Proof. reflexivity. Qed.

Lemma fireClose_closed c evs :
  fireClose (mkReader closed c evs)
  = mkResult (Normal tt) (mkReader closed c evs) [].
Proof. reflexivity. Qed.

Lemma listen_not_initial cb r :
  state r <> initial ->
  listen cb r = mkResult (Normal (mkDisposable cb)) r [].
Proof.
  destruct r as [[] c evs]; cbn; intros H; [contradiction| |]; reflexivity.
Qed.

Lemma run_app l1 l2 r :
  run (l1 ++ l2) r
  = (fst (run l2 (fst (run l1 r))), snd (run l1 r) ++ snd (run l2 (fst (run l1 r)))).
Proof.
  revert r. induction l1 as [|a l1 IH]; intros r; cbn.
  - now destruct (run l2 r).
  - rewrite IH.
    destruct (run l1 (after (perform a r))) as [r1 o1]. cbn.
    destruct (run l2 r1) as [r2 o2]. cbn.
    now rewrite app_assoc.
Qed.

(** *** The replay loop *)

Lemma replay_empty fuel r :
  events r = [] -> replay fuel r = mkResult (Normal tt) r [].
Proof.
  intros H. destruct fuel; cbn; unfold bind; cbn; rewrite H; reflexivity.
Qed.

Lemma replay_step fuel r ev rest :
  pop (events r) = Some (ev, rest) ->
  replay (S fuel) r
  = (replay_event ev ;; replay fuel) (mkReader (state r) (callback r) rest).
Proof.
  intros H. cbn [replay]. unfold bind at 1. cbn.
  rewrite H. unfold bind at 1. cbn.
  destruct ((replay_event ev ;; replay fuel) _) as [[] r' out]; reflexivity.
Qed.

Lemma replay_stuck r ev rest :
  pop (events r) = Some (ev, rest) ->
  replay 0 r = mkResult OutOfFuel r [].
Proof.
  intros H. cbn. unfold bind. cbn. now rewrite H.
Qed.

(** Outside state [initial] no handler touches the queue or leaves the
    non-initial states, and none of them loops. *)
Lemma readMessage_not_initial m r :
  state r <> initial ->
  events (after (readMessage m r)) = events r
  /\ state (after (readMessage m r)) = state r
  /\ completion (readMessage m r) <> OutOfFuel.
Proof.
  destruct r as [[] c evs]; intros H; [contradiction| |].
  - unfold readMessage, bind, parse, call_callback. cbn.
    destruct (JSON_parse m); cbn; [destruct c; cbn|]; repeat split; discriminate.
  - cbn. repeat split; discriminate.
Qed.

Lemma fireError_not_initial e r :
  state r <> initial ->
  events (after (fireError e r)) = events r
  /\ state (after (fireError e r)) = state r
  /\ completion (fireError e r) <> OutOfFuel.
Proof.
  destruct r as [[] c evs]; intros H; [contradiction| |].
  - unfold fireError, super_fireError, bind. cbn.
    destruct (nullish e); cbn; repeat split; discriminate.
  - cbn. repeat split; discriminate.
Qed.

Lemma fireClose_not_initial r :
  state r <> initial ->
  events (after (fireClose r)) = events r
  /\ state (after (fireClose r)) = closed
  /\ completion (fireClose r) <> OutOfFuel.
Proof.
  destruct r as [[] c evs]; intros H; [contradiction| |];
    cbn; repeat split; discriminate.
Qed.

Lemma replay_event_not_initial ev r :
  state r <> initial ->
  events (after (replay_event ev r)) = events r
  /\ state (after (replay_event ev r)) <> initial
  /\ completion (replay_event ev r) <> OutOfFuel.
Proof.
  intros H.
  assert (HM : forall m, events (after (readMessage m r)) = events r
             /\ state (after (readMessage m r)) <> initial
             /\ completion (readMessage m r) <> OutOfFuel).
  { intros m. destruct (readMessage_not_initial m r H) as (? & E & ?).
    repeat split; trivial. now rewrite E. }
  assert (HE : forall e, events (after (fireError e r)) = events r
             /\ state (after (fireError e r)) <> initial
             /\ completion (fireError e r) <> OutOfFuel).
  { intros e. destruct (fireError_not_initial e r H) as (? & E & ?).
    repeat split; trivial. now rewrite E. }
  assert (HC : events (after (fireClose r)) = events r
             /\ state (after (fireClose r)) <> initial
             /\ completion (fireClose r) <> OutOfFuel).
  { destruct (fireClose_not_initial r H) as (? & E & ?).
    repeat split; trivial. rewrite E. discriminate. }
  unfold replay_event.
  destruct (message ev) as [m|], (error ev) as [e|];
    repeat match goal with |- context [if ?b then _ else _] => destruct b end;
    auto.
Qed.

(** The loop ends within [length events] iterations whenever it is entered
    outside state [initial], which is how [listen] enters it. *)
Lemma replay_terminates fuel : forall r,
  state r <> initial ->
  List.length (events r) <= fuel ->
  completion (replay fuel r) <> OutOfFuel.
Proof.
  induction fuel as [|fuel IH]; intros r Hs Hl.
  - destruct (events r) eqn:E; [|cbn in Hl; lia].
    rewrite replay_empty by assumption. discriminate.
  - destruct (pop (events r)) as [[ev rest]|] eqn:P.
    + rewrite (replay_step _ _ _ _ P).
      pose proof (pop_length _ _ _ _ P) as L.
      set (r0 := mkReader (state r) (callback r) rest).
      destruct (replay_event_not_initial ev r0 Hs) as (He & Hs' & Hc).
      unfold bind.
      destruct (completion (replay_event ev r0)) eqn:C; cbn;
        [|discriminate|congruence].
      apply IH; [assumption|]. rewrite He. cbn. lia.
    + unfold pop in P. destruct (rev (events r)) eqn:E; [|discriminate].
      apply (f_equal (@rev _)) in E. rewrite rev_involutive in E. cbn in E.
      rewrite replay_empty by assumption. discriminate.
Qed.

(** [listen] in state [initial]: store the callback, then run the loop. *)
Lemma listen_initial cb c evs :
  listen cb (mkReader initial c evs)
  = let res := replay (List.length evs) (mkReader listening (Some cb) evs) in
    mkResult
      match completion res with
      | Normal _ => Normal (mkDisposable cb)
      | Throw e => Throw e
      | OutOfFuel => OutOfFuel
      end
      (after res) (fired res).
Proof.
  unfold listen, bind, get_state, set_state, set_callback, get_events, ret.
  cbn -[replay].
  destruct (replay _ _) as [[] r out]; cbn; now rewrite ?app_nil_r.
Qed.

Lemma listen_terminates cb r : completion (listen cb r) <> OutOfFuel.
Proof.
  destruct r as [[] c evs]; try (cbn; discriminate).
  rewrite listen_initial.
  pose proof (replay_terminates (List.length evs)
                (mkReader listening (Some cb) evs)) as T.
  cbn -[replay] in *.
  destruct (completion (replay _ _)) eqn:C; try discriminate.
  exfalso. apply T; [discriminate|lia|reflexivity].
Qed.

(** *** Buffering before [listen], replay at [listen] *)

Lemma run_buffers_messages msgs : forall c evs,
  run (map SocketMessage msgs) (mkReader initial c evs)
  = (mkReader initial c (rev (map message_entry msgs) ++ evs), []).
Proof.
  induction msgs as [|m msgs IH]; intros c evs; [reflexivity|].
  cbn [map run perform]. unfold socket_onMessage.
  rewrite readMessage_initial. cbn [after fired].
  rewrite IH. cbn [rev map]. now rewrite <- app_assoc.
Qed.

Lemma decoded_same_length (msgs : list string) : forall ds : list Message,
  map JSON_parse msgs = map Some ds -> List.length ds = List.length msgs.
Proof.
  intros ds H. apply (f_equal (@List.length _)) in H.
  now rewrite !length_map in H.
Qed.

Lemma decodable_is_truthy m d :
  JSON_parse "" = None -> JSON_parse m = Some d -> truthy_string m = true.
Proof.
  intros H0 H. destruct m; [congruence|reflexivity].
Qed.

Lemma replay_messages cb (Hempty : JSON_parse "" = None) msgs :
  forall ds fuel,
  map JSON_parse msgs = map Some ds ->
  List.length msgs <= fuel ->
  replay fuel (mkReader listening (Some cb) (rev (map message_entry msgs)))
  = mkResult (Normal tt) (mkReader listening (Some cb) [])
             (map (CallbackInvoked cb) ds).
Proof.
  induction msgs as [|m msgs IH]; intros ds fuel H L.
  - destruct ds; [|discriminate]. now rewrite replay_empty.
  - destruct ds as [|d ds]; [discriminate|]. injection H as Hm Hrest.
    destruct fuel as [|fuel]; [cbn in L; lia|].
    cbn [map rev].
    rewrite (replay_step fuel _ (message_entry m) (rev (map message_entry msgs)))
      by apply pop_snoc.
    cbn [state callback]. unfold bind, replay_event. cbn [message message_entry].
    rewrite (decodable_is_truthy m d Hempty Hm).
    rewrite (readMessage_listening_ok cb _ m d Hm). cbn [completion after fired].
    rewrite (IH ds fuel Hrest) by (cbn in L; lia).
    reflexivity.
Qed.

Lemma run_delivers_live_messages cb evs later : forall ds,
  map JSON_parse later = map Some ds ->
  run (map SocketMessage later) (mkReader listening (Some cb) evs)
  = (mkReader listening (Some cb) evs, map (CallbackInvoked cb) ds).
Proof.
  induction later as [|m later IH]; intros ds H.
  - destruct ds; [reflexivity|discriminate].
  - destruct ds as [|d ds]; [discriminate|]. injection H as Hm Hrest.
    cbn [map run perform]. unfold socket_onMessage.
    rewrite (readMessage_listening_ok cb evs m d Hm). cbn [after fired].
    now rewrite (IH ds Hrest).
Qed.

Lemma listen_replays cb (Hempty : JSON_parse "" = None) msgs ds c :
  map JSON_parse msgs = map Some ds ->
  listen cb (mkReader initial c (rev (map message_entry msgs)))
  = mkResult (Normal (mkDisposable cb)) (mkReader listening (Some cb) [])
             (map (CallbackInvoked cb) ds).
Proof.
  intros H. rewrite listen_initial.
  rewrite (replay_messages cb Hempty msgs ds)
    by (trivial; now rewrite length_rev, length_map).
  reflexivity.
Qed.

(** *** After the close *)

Lemma close_count_app o1 o2 :
  close_count (o1 ++ o2) = close_count o1 + close_count o2.
Proof. unfold close_count. now rewrite filter_app, length_app. Qed.

Lemma closes_once_silent {A} (c : Completion A) r : closes_once (mkResult c r []) r.
Proof.
  unfold closes_once. cbn. split; [lia|]. split; [discriminate|tauto].
Qed.

Lemma readMessage_closes_once m r : closes_once (readMessage m r) r.
Proof.
  destruct r as [[] c evs]; unfold closes_once, readMessage, bind, parse, call_callback; cbn.
  - repeat split; try lia; discriminate.
  - destruct (JSON_parse m); cbn; [destruct c; cbn|];
      repeat split; try lia; try discriminate.
  - repeat split; try lia; discriminate.
Qed.

Lemma fireError_closes_once e r : closes_once (fireError e r) r.
Proof.
  destruct r as [[] c evs]; unfold closes_once, fireError, super_fireError, bind; cbn;
    [|destruct (nullish e); cbn|];
    repeat split; try lia; discriminate.
Qed.

Lemma fireClose_closes_once r : closes_once (fireClose r) r.
Proof.
  destruct r as [[] c evs]; unfold closes_once; cbn;
    repeat split; try lia; discriminate.
Qed.

Lemma closes_once_bind {A B} (m : ReaderOp A) (k : A -> ReaderOp B) r :
  closes_once (m r) r ->
  (forall a, closes_once (k a (after (m r))) (after (m r))) ->
  closes_once (bind m k r) r.
Proof.
  intros (M1 & M2 & M3) K. unfold closes_once, bind.
  destruct (completion (m r)) as [a| |]; cbn -[close_count]; [|tauto|tauto].
  destruct (K a) as (K1 & K2 & K3).
  rewrite close_count_app.
  destruct (Nat.eq_dec (close_count (fired (m r))) 1) as [E|E].
  - destruct (K3 (M2 E)) as [F S]. rewrite F. cbn -[close_count].
    split; [|split]; [unfold close_count at 2; cbn; lia|trivial|].
    intros Hc. destruct (M3 Hc) as [F1 _]. rewrite F1 in E. discriminate.
  - assert (Z : close_count (fired (m r)) = 0) by lia. rewrite Z. cbn -[close_count].
    split; [|split]; trivial.
    intros Hc. destruct (M3 Hc) as [F1 S1]. destruct (K3 S1) as [F2 S2].
    now rewrite F1, F2.
Qed.

Lemma replay_event_closes_once ev r : closes_once (replay_event ev r) r.
Proof.
  unfold replay_event.
  destruct (message ev) as [m|], (error ev) as [e|];
    repeat match goal with |- context [if ?b then _ else _] => destruct b end;
    auto using readMessage_closes_once, fireError_closes_once, fireClose_closes_once.
Qed.

Lemma replay_closes_once fuel : forall r,
  state r <> initial -> closes_once (replay fuel r) r.
Proof.
  induction fuel as [|fuel IH]; intros r Hs.
  - destruct (pop (events r)) as [[ev rest]|] eqn:P.
    + rewrite (replay_stuck _ _ _ P). apply closes_once_silent.
    + cbn. unfold bind. cbn. rewrite P. apply closes_once_silent.
  - destruct (pop (events r)) as [[ev rest]|] eqn:P.
    + rewrite (replay_step _ _ _ _ P).
      set (r0 := mkReader (state r) (callback r) rest).
      assert (G : closes_once ((replay_event ev ;; replay fuel) r0) r0).
      { apply closes_once_bind; [apply replay_event_closes_once|].
        intros _. apply IH.
        now destruct (replay_event_not_initial ev r0 Hs) as (_ & ? & _). }
      exact G.
    + cbn. unfold bind. cbn. rewrite P. apply closes_once_silent.
Qed.

Lemma listen_closes_once cb r : closes_once (listen cb r) r.
Proof.
  destruct r as [[] c evs].
  - rewrite listen_initial.
    destruct (replay_closes_once (List.length evs)
                (mkReader listening (Some cb) evs)) as (R1 & R2 & _);
      [discriminate|].
    unfold closes_once. cbn -[replay]. repeat split; trivial; discriminate.
  - unfold closes_once. cbn. repeat split; try lia; discriminate.
  - unfold closes_once. cbn. repeat split; try lia; discriminate.
Qed.

Lemma dispose_closes_once h r : closes_once (dispose h r) r.
Proof.
  destruct r as [st [f|] evs]; unfold closes_once, dispose, bind; cbn;
    [destruct (same_callback f (captured h)); cbn|];
    repeat split; try lia; trivial; discriminate.
Qed.

Lemma perform_closes_once a r : closes_once (perform a r) r.
Proof.
  destruct a as [m|e|code reason|cb|h]; cbn [perform].
  - apply readMessage_closes_once.
  - apply fireError_closes_once.
  - unfold socket_onClose. apply closes_once_bind.
    + destruct (negb (code =? 1000)%Z).
      * apply fireError_closes_once.
      * unfold closes_once. cbn. repeat split; trivial; lia.
    + intros _. apply fireClose_closes_once.
  - apply closes_once_bind; [apply listen_closes_once|].
    intros _. unfold closes_once. cbn. repeat split; trivial; lia.
  - apply dispose_closes_once.
Qed.

Lemma run_closes_once actions : forall r,
  close_count (snd (run actions r)) <= 1
  /\ (close_count (snd (run actions r)) = 1 -> state (fst (run actions r)) = closed)
  /\ (state r = closed ->
      snd (run actions r) = [] /\ state (fst (run actions r)) = closed).
Proof.
  induction actions as [|a actions IH]; intros r.
  - cbn. repeat split; trivial; try lia; discriminate.
  - cbn [run].
    destruct (perform_closes_once a r) as (P1 & P2 & P3).
    destruct (IH (after (perform a r))) as (I1 & I2 & I3).
    destruct (run actions (after (perform a r))) as [r2 out] eqn:E.
    cbn [fst snd] in *. rewrite close_count_app.
    destruct (Nat.eq_dec (close_count (fired (perform a r))) 1) as [C|C].
    + destruct (I3 (P2 C)) as [F S]. subst out. cbn -[close_count].
      split; [|split]; [unfold close_count at 2; cbn; lia|trivial|].
      intros Hc. destruct (P3 Hc) as [F1 _]. rewrite F1 in C. discriminate.
    + assert (Z : close_count (fired (perform a r)) = 0) by lia. rewrite Z.
      cbn -[close_count].
      split; [|split]; trivial.
      intros Hc. destruct (P3 Hc) as [F1 S1]. destruct (I3 S1) as [F2 S2].
      now rewrite F1, F2.
Qed.

Lemma perform_listen cb r :
  after (perform (Listen cb) r) = after (listen cb r)
  /\ fired (perform (Listen cb) r) = fired (listen cb r).
Proof.
  cbn [perform]. unfold bind.
  destruct (listen cb r) as [[] r' out]; cbn; now rewrite ?app_nil_r.
Qed.

Lemma run_buffer_listen_live cb (Hempty : JSON_parse "" = None) msgs later ds ds' :
  map JSON_parse msgs = map Some ds ->
  map JSON_parse later = map Some ds' ->
  run (map SocketMessage msgs ++ Listen cb :: map SocketMessage later) new_reader
  = (mkReader listening (Some cb) [], map (CallbackInvoked cb) (ds ++ ds')).
Proof.
  intros Hds Hds'. unfold new_reader.
  rewrite run_app, run_buffers_messages, app_nil_r. cbn [fst snd app].
  cbn [run].
  destruct (perform_listen cb (mkReader initial None (rev (map message_entry msgs))))
    as [-> ->].
  rewrite (listen_replays cb Hempty msgs ds None Hds). cbn [after fired].
  rewrite (run_delivers_live_messages cb [] later ds' Hds').
  now rewrite map_app.
Qed.

Lemma socket_onClose_listening c evs code reason :
  socket_onClose code reason (mkReader listening c evs)
  = mkResult (Normal tt) (mkReader closed c evs)
      (if (code =? 1000)%Z then [CloseFired]
       else [ErrorFired (reconnect_error code reason); CloseFired]).
Proof.
  unfold socket_onClose, bind. destruct (code =? 1000)%Z; cbn; reflexivity.
Qed.

(** *** Properties of the reader *)

(** C1 (as amended). Let N messages arrive before any [listen], each payload a
    JSON text (it decodes; the empty text is not JSON). The first [listen cb]
    then completes normally, leaves the queue empty and invokes [cb] exactly N
    times, on the decoded payloads in arrival order, before it returns; the
    messages arriving afterwards are delivered after those N. *)
Theorem listen_replays_buffered_messages_in_order
    (msgs later : list string) (ds ds' : list Message) (cb : DataCallback) :
  JSON_parse "" = None ->
  map JSON_parse msgs = map Some ds ->
  map JSON_parse later = map Some ds' ->
  let buffered := fst (run (map SocketMessage msgs) new_reader) in
  listen cb buffered
  = mkResult (Normal (mkDisposable cb)) (mkReader listening (Some cb) [])
             (map (CallbackInvoked cb) ds)
  /\ List.length (map (CallbackInvoked cb) ds) = List.length msgs
  /\ run (map SocketMessage msgs ++ Listen cb :: map SocketMessage later) new_reader
     = (mkReader listening (Some cb) [],
        map (CallbackInvoked cb) ds ++ map (CallbackInvoked cb) ds').
Proof.
  intros Hempty Hds Hds'. cbn zeta.
  unfold new_reader. rewrite run_buffers_messages, app_nil_r. cbn [fst].
  pose proof (listen_replays cb Hempty msgs ds None Hds) as L.
  split; [exact L|]. split.
  - rewrite length_map. now apply decoded_same_length.
  - fold (@new_reader).
    rewrite (run_buffer_listen_live cb Hempty msgs later ds ds' Hds Hds').
    now rewrite map_app.
Qed.

(** C2 (the code as it is). When the socket closes before any [listen], the
    reader is [closed] at once and the close marker joins the queue; a later
    [listen] then finds the state not [initial], stores no callback and replays
    nothing, so the queue keeps every buffered event for good. *)
Theorem close_before_listen_strands_the_queue
    (msgs : list string) (code : Z) (reason : string) (cb : DataCallback) :
  let stranded :=
    close_marker
      :: (if (code =? 1000)%Z then []
          else [error_entry (reconnect_error code reason)])
      ++ rev (map message_entry msgs) in
  run (map SocketMessage msgs ++ [SocketClose code reason]) new_reader
  = (mkReader closed None stranded, [])
  /\ listen cb (mkReader closed None stranded)
     = mkResult (Normal (mkDisposable cb)) (mkReader closed None stranded) []
  /\ forall actions,
       snd (run actions (mkReader closed None stranded)) = [].
Proof.
  cbn zeta. split; [|split].
  - rewrite run_app. unfold new_reader.
    rewrite run_buffers_messages, app_nil_r. cbn [fst snd app run perform].
    unfold socket_onClose, bind.
    destruct (code =? 1000)%Z; cbn; reflexivity.
  - apply listen_not_initial. cbn. discriminate.
  - intros actions. now apply run_closes_once.
Qed.

(** C3. A socket close event reaching a listening reader fires only the close
    event when the code is 1000; for every other code it fires an error event
    first, whose value carries that code, and the close event after it. The
    reader is [closed] afterwards. *)
Theorem close_code_selects_error_then_close
    (c : option DataCallback) (evs : list BufferedEvent) (code : Z) (reason : string) :
  socket_onClose code reason (mkReader listening c evs)
  = mkResult (Normal tt) (mkReader closed c evs)
      (if (code =? 1000)%Z then [CloseFired]
       else [ErrorFired (reconnect_error code reason); CloseFired])
  /\ (forall code' reason',
        reconnect_error code reason = reconnect_error code' reason' -> code = code').
Proof.
  split.
  - apply socket_onClose_listening.
  - intros code' reason' H. unfold reconnect_error in H.
    injection H as Hname _. now apply number_to_string_inj.
Qed.

(** C4. A [closed] reader fires nothing, whatever the socket emits and the
    consumer calls afterwards, and it stays [closed]; and in every run, from
    every reader, the close event fires at most once. *)
Theorem closed_reader_stays_silent :
  (forall actions c evs,
     snd (run actions (mkReader closed c evs)) = []
     /\ state (fst (run actions (mkReader closed c evs))) = closed)
  /\ (forall actions r, close_count (snd (run actions r)) <= 1)
  /\ (forall before afterwards r,
        state (fst (run before r)) = closed ->
        snd (run (before ++ afterwards) r) = snd (run before r)).
Proof.
  split; [|split].
  - intros actions c evs. now apply run_closes_once.
  - intros actions r. apply run_closes_once.
  - intros before afterwards r H. rewrite run_app. cbn [snd].
    destruct (run_closes_once afterwards (fst (run before r))) as (_ & _ & S).
    destruct (S H) as [F _]. rewrite F. apply app_nil_r.
Qed.

(** *** A second [listen] *)

Lemma perform_owned_by cb a r :
  owned_by cb r ->
  owned_by cb (after (perform a r)) /\ Forall (delivered_to cb) (fired (perform a r)).
Proof.
  intros [Hs Hc]. destruct r as [st c evs]. cbn in Hs, Hc.
  destruct a as [m|e|code reason|f|h]; cbn [perform].
  - unfold socket_onMessage, readMessage, bind, parse, call_callback, owned_by.
    destruct st; [contradiction| |]; cbn.
    + destruct (JSON_parse m); cbn.
      * destruct Hc as [->| ->]; cbn; repeat split; auto; try discriminate.
        repeat constructor.
      * repeat split; auto; discriminate.
    + repeat split; auto; discriminate.
  - unfold socket_onError, fireError, super_fireError, bind, owned_by.
    destruct st; [contradiction| |]; cbn; [destruct (nullish e); cbn|];
      repeat split; auto; try discriminate; repeat constructor.
  - unfold socket_onClose, bind, owned_by.
    destruct st; [contradiction| |]; destruct (negb (code =? 1000)%Z); cbn;
      repeat split; auto; try discriminate; repeat constructor.
  - unfold owned_by.
    destruct st; [contradiction| |]; cbn; repeat split; auto; discriminate.
  - unfold dispose, bind, owned_by. cbn.
    destruct c as [g|]; cbn; [destruct (same_callback g (captured h)); cbn|];
      repeat split; auto.
Qed.

Lemma run_owned_by cb actions : forall r,
  owned_by cb r -> Forall (delivered_to cb) (snd (run actions r)).
Proof.
  induction actions as [|a actions IH]; intros r H; cbn [run].
  - constructor.
  - destruct (perform_owned_by cb a r H) as [H1 F1].
    specialize (IH _ H1).
    destruct (run actions (after (perform a r))) as [r2 out]. cbn [snd] in *.
    apply Forall_app. now split.
Qed.

Lemma dispose_stored f cb st evs :
  dispose (mkDisposable cb) (mkReader st (Some f) evs)
  = mkResult (Normal tt)
      (mkReader st (if same_callback f cb then None else Some f) evs) [].
Proof.
  unfold dispose, bind. cbn. destruct (same_callback f cb); reflexivity.
Qed.

(** C9. On a reader that is already listening with [cb1], [listen cb2] changes
    nothing and fires nothing, and disposing the handle it returns leaves [cb1]
    in place when [cb2] is another function object: every later message still
    goes to [cb1], and no data callback invocation of any later run goes
    elsewhere. A handle clears the stored callback exactly when that callback
    is the one it was created with. *)
Theorem second_listen_is_ignored
    (cb1 cb2 : DataCallback) (evs : list BufferedEvent) :
  same_callback cb1 cb2 = false ->
  let r := mkReader listening (Some cb1) evs in
  listen cb2 r = mkResult (Normal (mkDisposable cb2)) r []
  /\ dispose (mkDisposable cb2) r = mkResult (Normal tt) r []
  /\ (forall later ds,
        map JSON_parse later = map Some ds ->
        run (Listen cb2 :: Dispose (mkDisposable cb2) :: map SocketMessage later) r
        = (r, map (CallbackInvoked cb1) ds))
  /\ (forall actions,
        Forall (delivered_to cb1) (snd (run (Listen cb2 :: actions) r)))
  /\ (forall f cb st evs',
        callback (after (dispose (mkDisposable cb) (mkReader st (Some f) evs')))
        = if same_callback f cb then None else Some f).
Proof.
  intros Hne r.
  assert (L : listen cb2 r = mkResult (Normal (mkDisposable cb2)) r [])
    by (apply listen_not_initial; discriminate).
  assert (D : dispose (mkDisposable cb2) r = mkResult (Normal tt) r [])
    by (unfold r; rewrite dispose_stored, Hne; reflexivity).
  split; [exact L|]. split; [exact D|]. split; [|split].
  - intros later ds Hds. cbn [run].
    destruct (perform_listen cb2 r) as [-> ->]. rewrite L. cbn [after fired perform].
    rewrite D. cbn [after fired].
    unfold r. now rewrite (run_delivers_live_messages cb1 evs later ds Hds).
  - intros actions. apply run_owned_by. split; [discriminate|now left].
  - intros f cb st evs'. now rewrite dispose_stored.
Qed.

(** *** The empty message *)

Lemma replay_event_closed ev c evs :
  replay_event ev (mkReader closed c evs)
  = mkResult (Normal tt) (mkReader closed c evs) [].
Proof.
  unfold replay_event.
  destruct (message ev) as [m|], (error ev) as [e|];
    repeat match goal with |- context [if ?b then _ else _] => destruct b end;
    reflexivity.
Qed.

(** A [closed] reader still empties its queue in the loop, silently. *)
Lemma replay_closed fuel : forall c evs,
  List.length evs <= fuel ->
  replay fuel (mkReader closed c evs) = mkResult (Normal tt) (mkReader closed c []) [].
Proof.
  induction fuel as [|fuel IH]; intros c evs L.
  - destruct evs; [|cbn in L; lia]. now rewrite replay_empty.
  - destruct evs as [|e0 evs0] using rev_ind; [now rewrite replay_empty|].
    clear IHevs0.
    rewrite (replay_step fuel _ e0 evs0) by apply pop_snoc.
    cbn [state callback]. unfold bind. rewrite replay_event_closed.
    cbn [completion after fired].
    rewrite IH by (rewrite length_app in L; cbn in L; lia).
    reflexivity.
Qed.

Lemma empty_message_entry_is_close_marker r :
  replay_event (message_entry "") r = replay_event close_marker r
  /\ replay_event (message_entry "") r = fireClose r.
Proof. split; reflexivity. Qed.

Lemma replay_up_to_empty_message cb (Hempty : JSON_parse "" = None)
    (later : list BufferedEvent) msgs :
  forall ds fuel,
  map JSON_parse msgs = map Some ds ->
  List.length later + S (List.length msgs) <= fuel ->
  replay fuel
    (mkReader listening (Some cb)
       (later ++ message_entry "" :: rev (map message_entry msgs)))
  = mkResult (Normal tt) (mkReader closed (Some cb) [])
             (map (CallbackInvoked cb) ds ++ [CloseFired]).
Proof.
  induction msgs as [|m msgs IH]; intros ds fuel H L.
  - destruct ds; [|discriminate].
    destruct fuel as [|fuel]; [lia|]. cbn [map rev].
    rewrite (replay_step fuel _ (message_entry "") later) by apply pop_snoc.
    cbn [state callback]. unfold bind.
    destruct (empty_message_entry_is_close_marker
                (mkReader listening (Some cb) later)) as [_ ->].
    rewrite fireClose_listening. cbn [completion after fired].
    rewrite replay_closed by lia. reflexivity.
  - destruct ds as [|d ds]; [discriminate|]. injection H as Hm Hrest.
    destruct fuel as [|fuel]; [lia|]. cbn [map rev].
    replace (later ++ message_entry "" :: rev (map message_entry msgs) ++ [message_entry m])
      with ((later ++ message_entry "" :: rev (map message_entry msgs)) ++ [message_entry m])
      by (now rewrite <- app_assoc).
    rewrite (replay_step fuel _ (message_entry m)
               (later ++ message_entry "" :: rev (map message_entry msgs)))
      by apply pop_snoc.
    cbn [state callback]. unfold bind, replay_event. cbn [message message_entry].
    rewrite (decodable_is_truthy m d Hempty Hm).
    rewrite (readMessage_listening_ok cb _ m d Hm). cbn [completion after fired].
    rewrite (IH ds fuel Hrest) by (cbn in L; lia).
    reflexivity.
Qed.

(** C10. In the replay loop the buffered entry of an empty message is handled
    exactly as a close marker is: the loop body runs [fireClose] for it. So when
    [""] arrives before [listen], after JSON messages and before any others,
    [listen cb] delivers the earlier messages, then fires the close event and
    leaves the reader [closed]; the empty message and every message buffered
    after it are never delivered. *)
Theorem empty_message_is_replayed_as_close
    (msgs more : list string) (ds : list Message) (cb : DataCallback) :
  JSON_parse "" = None ->
  map JSON_parse msgs = map Some ds ->
  (forall r, replay_event (message_entry "") r = replay_event close_marker r
             /\ replay_event (message_entry "") r = fireClose r)
  /\ fst (run (map SocketMessage (msgs ++ "" :: more)) new_reader)
     = mkReader initial None
         (rev (map message_entry more) ++ message_entry "" :: rev (map message_entry msgs))
  /\ run (map SocketMessage (msgs ++ "" :: more) ++ [Listen cb]) new_reader
     = (mkReader closed (Some cb) [],
        map (CallbackInvoked cb) ds ++ [CloseFired]).
Proof.
  intros Hempty Hds.
  assert (B : run (map SocketMessage (msgs ++ "" :: more)) new_reader
              = (mkReader initial None
                   (rev (map message_entry more) ++ message_entry ""
                      :: rev (map message_entry msgs)), [])).
  { unfold new_reader. rewrite run_buffers_messages, app_nil_r.
    rewrite map_app, rev_app_distr. cbn [map rev]. now rewrite <- app_assoc. }
  split; [apply empty_message_entry_is_close_marker|].
  split; [now rewrite B|].
  rewrite run_app, B. cbn [fst snd app run].
  destruct (perform_listen cb
              (mkReader initial None
                 (rev (map message_entry more) ++ message_entry ""
                    :: rev (map message_entry msgs)))) as [-> ->].
  rewrite listen_initial.
  rewrite (replay_up_to_empty_message cb Hempty _ msgs ds)
    by (trivial; rewrite length_app, !length_rev, !length_map; cbn;
        rewrite length_rev, length_map; lia).
  cbn. now rewrite app_nil_r.
Qed.

End WithMessages.

Arguments mkReader {DataCallback}.
Arguments new_reader {DataCallback}.
Arguments state {DataCallback}.
Arguments callback {DataCallback}.
Arguments events {DataCallback}.
Arguments mkDisposable {DataCallback}.
Arguments SocketMessage {DataCallback}.
Arguments SocketError {DataCallback}.
Arguments SocketClose {DataCallback}.
Arguments Listen {DataCallback}.
Arguments Dispose {DataCallback}.
Arguments CallbackInvoked {Message DataCallback}.
Arguments ErrorFired {Message DataCallback}.
Arguments CloseFired {Message DataCallback}.
Arguments readMessage {Message} JSON_parse {DataCallback}.
Arguments fireError {Message DataCallback}.
Arguments fireClose {Message DataCallback}.
Arguments listen {Message} JSON_parse {DataCallback}.
Arguments dispose {Message DataCallback}.
Arguments socket_onClose {Message DataCallback}.
Arguments perform {Message} JSON_parse {DataCallback}.
Arguments run {Message} JSON_parse {DataCallback}.
Arguments close_count {Message DataCallback}.
Arguments delivered_to {Message DataCallback}.

End Reader.

(** ** WebSocketMessageWriter *)

(** What a call to a collaborator outside this layer does: return or raise. *)
Inductive Outcome (A : Type) : Type :=
| Returned (a : A)
| Raised (e : exn).
Arguments Returned {A} a.
Arguments Raised {A} e.

Module Writer.
Section WithSocket.

Variable Message : Type.

(** [JSON.stringify] on messages. *)
Variable JSON_stringify : Message -> Outcome string.

(** The socket the writer sends on, and its [send]; a raising [send] may
    still have changed the socket. *)
Variable Socket : Type.
Variable socket_send : string -> Socket -> Outcome unit * Socket.

(** [errorCount] is a JavaScript number that only ever counts up from 0 in
    steps of one; it is a natural number here. *)
Record WebSocketMessageWriter : Type := mkWriter {
  errorCount : nat;
  socket : Socket
}.

(** A call [this.fireError(e, msg, count)]. The write-error event it stands
    for reaches the error listeners when the call returns. *)
Inductive WriteError : Type :=
| WriteErrorFired (e : exn) (msg : Message) (count : nat).


Definition WriterOp (A : Type) : Type := Op WebSocketMessageWriter WriteError A.

(** [new WebSocketMessageWriter(socket)]. *)
Definition new_writer (sock : Socket) : WebSocketMessageWriter := mkWriter 0 sock.

Definition stringify (msg : Message) : WriterOp string :=
  match JSON_stringify msg with
  | Returned content => ret content
  | Raised e => throw e
  end.

(** [this.socket.send(content)]. *)
Definition send (content : string) : WriterOp unit := fun w =>
  let '(outcome, sock) := socket_send content (socket w) in
  mkResult
    match outcome with
    | Returned _ => Normal tt
    | Raised e => Throw e
    end
    (mkWriter (errorCount w) sock) [].

(** [this.errorCount++]. *)
Definition increment_errorCount : WriterOp unit := fun w =>
  mkResult (Normal tt) (mkWriter (S (errorCount w)) (socket w)) [].

(** Whether the thrown value is [undefined] or [null]. *)
Definition thrown_nullish (e : exn) : bool :=
  match e with
  | ThrownValue v => nullish v
  | _ => false
  end.

(** [this.fireError(e, msg, count)], inherited from [AbstractMessageWriter].
    The call is recorded. Before it notifies the error listeners it turns a
    value that is not an [Error] into one, reading [e.message]; on
    [undefined] and [null] that read throws, and no listener is notified. *)
Definition fireError (e : exn) (msg : Message) (count : nat) : WriterOp unit :=
  emit (WriteErrorFired e msg count) ;;
  if thrown_nullish e then throw TypeError else ret tt.

(** The [try] block of [write]. *)
Definition attempt (msg : Message) : WriterOp unit :=
  content <- stringify msg ;;
  send content.

(** [write] is [async]: its completion is that of the promise it returns,
    [Normal] for fulfilled and [Throw] for rejected. The [catch] block is not
    guarded, so what [fireError] throws rejects the promise. *)
Definition write (msg : Message) : WriterOp unit :=
  try_catch (attempt msg)
    (fun e =>
       increment_errorCount ;;
       w <- get ;;
       fireError e msg (errorCount w)).

(** [end()]. *)
Definition end_ : WriterOp unit := ret tt.

(** One [write] call after another, as the callers of this layer make them:
    none awaits the promise. *)
Fixpoint write_all (msgs : list Message) : WriterOp unit :=
  match msgs with
  | [] => ret tt
  | msg :: rest => detached (write msg) ;; write_all rest
  end.




(** Whether a [fireError] call gets as far as the listeners. *)
Definition reported (ev : WriteError) : bool :=
  match ev with WriteErrorFired e _ _ => negb (thrown_nullish e) end.

(** The failed writes of a run of [write] calls on a socket, each with the
    exception that ended its [try] block, in call order. *)
Fixpoint failures (msgs : list Message) (sock : Socket) : list (exn * Message) :=
  match msgs with
  | [] => []
  | msg :: rest =>
      let res := attempt msg (new_writer sock) in
      match completion res with
      | Throw e => (e, msg) :: failures rest (socket (after res))
      | _ => failures rest (socket (after res))
      end
  end.

(** Number failures from [n + 1] upwards. *)
Fixpoint numbered (n : nat) (l : list (exn * Message)) : list WriteError :=
  match l with
  | [] => []
  | (e, msg) :: rest => WriteErrorFired e msg (S n) :: numbered (S n) rest
  end.

(** *** Properties of the writer *)

(** The [try] block does not look at the counter. *)
Lemma attempt_at n msg sock :
  attempt msg (mkWriter n sock)
  = let res := attempt msg (new_writer sock) in
    mkResult (completion res) (mkWriter n (socket (after res))) [].
Proof.
  unfold attempt, bind, stringify, send, new_writer.
  destruct (JSON_stringify msg) as [content|e]; cbn; [|reflexivity].
  destruct (socket_send content sock) as [[[]|e] sock']; reflexivity.
Qed.

Lemma attempt_completes msg w : completion (attempt msg w) <> OutOfFuel.
Proof.
  unfold attempt, bind, stringify, send.
  destruct (JSON_stringify msg) as [content|e]; cbn; [|discriminate].
  destruct (socket_send content (socket w)) as [[[]|e] sock']; cbn; discriminate.
Qed.

Lemma write_failed msg n sock e :
  completion (attempt msg (new_writer sock)) = Throw e ->
  write msg (mkWriter n sock)
  = mkResult (if thrown_nullish e then Throw TypeError else Normal tt)
      (mkWriter (S n) (socket (after (attempt msg (new_writer sock)))))
      [WriteErrorFired e msg (S n)].
Proof.
  intros H. unfold write, try_catch. rewrite attempt_at. cbn zeta.
  cbn [completion after fired]. rewrite H.
  unfold fireError, bind, increment_errorCount, get, emit. cbn.
  destruct (thrown_nullish e); reflexivity.
Qed.

Lemma write_succeeded msg n sock :
  completion (attempt msg (new_writer sock)) = Normal tt ->
  write msg (mkWriter n sock)
  = mkResult (Normal tt)
      (mkWriter n (socket (after (attempt msg (new_writer sock))))) [].
Proof.
  intros H. unfold write, try_catch. rewrite attempt_at. cbn zeta.
  cbn [completion after fired]. rewrite H. reflexivity.
Qed.

(** The promise of a [write] is settled, one way or the other. *)
Lemma write_settles msg w : completion (write msg w) <> OutOfFuel.
Proof.
  destruct w as [n sock].
  destruct (completion (attempt msg (new_writer sock))) as [[]|e|] eqn:C.
  - rewrite (write_succeeded msg n sock C). discriminate.
  - rewrite (write_failed msg n sock e C). cbn.
    destruct (thrown_nullish e); discriminate.
  - now destruct (attempt_completes msg (new_writer sock)).
Qed.

Lemma write_detached msg w :
  detached (write msg) w
  = mkResult (Normal tt) (after (write msg w)) (fired (write msg w)).
Proof.
  unfold detached. pose proof (write_settles msg w) as H.
  destruct (completion (write msg w)) as [[]| |]; [reflexivity|reflexivity|].
  now destruct H.
Qed.

Lemma fireError_returns e msg count w :
  completion (fireError e msg count w) = Normal tt
  <-> reported (WriteErrorFired e msg count) = true.
Proof.
  unfold fireError, bind, emit. cbn.
  destruct (thrown_nullish e); cbn; split; congruence.
Qed.


Lemma numbered_length l n : List.length (numbered n l) = List.length l.
Proof.
  revert n. induction l as [|[e msg] l IH]; intros n; cbn; [reflexivity|].
  now rewrite IH.
Qed.

Lemma write_all_spec msgs : forall n sock,
  exists sock',
    write_all msgs (mkWriter n sock)
    = mkResult (Normal tt)
        (mkWriter (n + List.length (failures msgs sock)) sock')
        (numbered n (failures msgs sock)).
Proof.
  induction msgs as [|msg msgs IH]; intros n sock; cbn [write_all failures].
  - exists sock. cbn. now rewrite Nat.add_0_r.
  - unfold bind. rewrite write_detached. cbn [completion after fired].
    destruct (completion (attempt msg (new_writer sock))) as [[]|e|] eqn:C.
    + rewrite (write_succeeded msg n sock C). cbn [completion after fired].
      destruct (IH n (socket (after (attempt msg (new_writer sock))))) as [sock' ->].
      exists sock'. reflexivity.
    + rewrite (write_failed msg n sock e C). cbn [completion after fired].
      destruct (IH (S n) (socket (after (attempt msg (new_writer sock))))) as [sock' ->].
      exists sock'. cbn. now rewrite Nat.add_succ_r.
    + now destruct (attempt_completes msg (new_writer sock)).
Qed.





End WithSocket.

Arguments mkWriter {Socket}.
Arguments new_writer {Socket}.
Arguments errorCount {Socket}.
Arguments socket {Socket}.
Arguments WriteErrorFired {Message}.
Arguments write {Message} JSON_stringify {Socket} socket_send.
Arguments write_all {Message} JSON_stringify {Socket} socket_send.
Arguments attempt {Message} JSON_stringify {Socket} socket_send.

End Writer.

(** ** Connections: [createConnection] and [PluginConnection]

    A connection is built over a reader and a writer it is handed. The reader
    here is the [WebSocketMessageReader] that [createWebSocketConnection]
    passes in; the writers a connection forwards to are only used through the
    [MessageWriter] interface. *)

Module Connection.
Section WithWriters.

Variable Message : Type.
Variable JSON_parse : string -> option Message.

(** The [MessageWriter] interface as [forward] uses it: [write(msg)]. The call
    returns a promise and reports failures by events, so what it does is seen
    in the writer's state only. *)
Class MessageWriter (W : Type) : Type := {
  writer_write : Message -> W -> W
}.

Context {W : Type} {target_writer : MessageWriter W}.

(** A connection object, by reference. *)
Definition ConnectionRef : Type := nat.

(** The function object [forward] hands to [listen]:
    [input => { const output = map(input); to.writer.write(output); }].
    It closes over [to] and [map]; [identity] tells function objects apart. *)
Record Listener : Type := mkListener {
  identity : nat;
  to : ConnectionRef;
  map_message : Message -> Message
}.

Definition same_listener (f g : Listener) : bool :=
  Nat.eqb (identity f) (identity g).

(** A callback given to [onClose], by identity. *)
Definition CloseCallback : Type := nat.

(** Modelled from the spec: [DisposableCollection] and [Disposable.create]
    (common/disposable.ts) are not among the sources. The spec describes a
    disposal group that callbacks are pushed to and that the first close from
    either side tears down, a second close being a no-op. The group is the
    list of callbacks pushed and not yet fired; disposing it empties it and
    fires each of them once. The spec does not give the order in which they
    fire; registration order is used, and the property proved counts
    invocations only. *)
Record DisposableCollection : Type := mkCollection {
  disposables : list CloseCallback
}.

Definition push (cb : CloseCallback) (g : DisposableCollection) : DisposableCollection :=
  mkCollection (disposables g ++ [cb]).

Definition dispose_collection (g : DisposableCollection)
  : DisposableCollection * list CloseCallback :=
  (mkCollection [], disposables g).

(** The connection [c] under study: its reader, its [disposeOnClose] group,
    and the writers of the connections it can forward to. *)
#[projections(primitive)] Record System : Type := mkSystem {
  reader : Reader.WebSocketMessageReader Listener;
  disposeOnClose : DisposableCollection;
  writers : ConnectionRef -> W
}.

(** Calls on the connection fire [onClose] callbacks. *)
Definition ConnOp (A : Type) : Type := Op System CloseCallback A.

(** [createConnection(reader, writer, onDispose)]: a new, empty group. *)
Definition createConnection (r : Reader.WebSocketMessageReader Listener)
    (ws : ConnectionRef -> W) : System :=
  mkSystem r (mkCollection []) ws.

Definition update (ws : ConnectionRef -> W) (c : ConnectionRef) (w : W)
  : ConnectionRef -> W :=
  fun c' => if Nat.eqb c' c then w else ws c'.

(** Calling the function object built by [forward]. *)
Definition call_listener (l : Listener) (input : Message) : ConnOp unit := fun sys =>
  let output := map_message l input in
  mkResult (Normal tt)
    (mkSystem (reader sys) (disposeOnClose sys)
       (update (writers sys) (to l) (writer_write output (writers sys (to l)))))
    [].

(** [() => disposeOnClose.dispose()], registered on the reader and on the
    writer alike. *)
Definition close_listener : ConnOp unit := fun sys =>
  let '(g, cbs) := dispose_collection (disposeOnClose sys) in
  mkResult (Normal tt) (mkSystem (reader sys) g (writers sys)) cbs.

(** Where a call made by the reader lands. [createConnection] registers no
    error listener. *)
Definition dispatch (e : Reader.Emission Message Listener) : ConnOp unit :=
  match e with
  | Reader.CallbackInvoked l data => call_listener l data
  | Reader.ErrorFired _ => ret tt
  | Reader.CloseFired => close_listener
  end.

Fixpoint dispatch_all (es : list (Reader.Emission Message Listener)) : ConnOp unit :=
  match es with
  | [] => ret tt
  | e :: rest => dispatch e ;; dispatch_all rest
  end.

(** Something happens on the reader of [c]. The listeners run inside the
    reader's call; they act on the group and on the writers and never on the
    reader, so their effect is applied to the state the reader's call leaves.
    The call completes as the reader's call does. *)
Definition on_reader (a : Reader.Action Listener) : ConnOp unit := fun sys =>
  let res := Reader.perform JSON_parse same_listener a (reader sys) in
  let delivered :=
    dispatch_all (fired res)
      (mkSystem (after res) (disposeOnClose sys) (writers sys)) in
  mkResult (completion res) (after delivered) (fired delivered).

(** [map: (message: Message) => Message = message => message]. *)
Definition default_map (map : option (Message -> Message)) : Message -> Message :=
  match map with
  | Some f => f
  | None => fun message => message
  end.

(** [forward(to, map)]; [fresh] is the identity of the function object the
    call creates. *)
Definition forward (fresh : nat) (to : ConnectionRef)
    (map : option (Message -> Message)) : ConnOp unit :=
  on_reader (Reader.Listen (mkListener fresh to (default_map map))).

(** [onClose(callback)]: [disposeOnClose.push(Disposable.create(callback))]. *)
Definition onClose (callback : CloseCallback) : ConnOp unit := fun sys =>
  mkResult (Normal tt)
    (mkSystem (reader sys) (push callback (disposeOnClose sys)) (writers sys)) [].

(** The two places a close can come from. *)
Inductive CloseSource : Type := FromReader | FromWriter.

(** The reader or the writer fires its close event: the listener registered
    on it by [createConnection] runs. *)
Definition signal_close (src : CloseSource) : ConnOp unit :=
  match src with
  | FromReader => close_listener
  | FromWriter => close_listener
  end.

Inductive Event : Type :=
| OnSocket (a : Reader.Action Listener)
| Forward (fresh : nat) (to : ConnectionRef) (map : option (Message -> Message))
| OnClose (callback : CloseCallback)
| Closes (src : CloseSource).

Definition handle (ev : Event) : ConnOp unit :=
  match ev with
  | OnSocket a => on_reader a
  | Forward fresh to map => forward fresh to map
  | OnClose callback => onClose callback
  | Closes src => signal_close src
  end.

(** A sequence of events; as for the reader, an exception leaves through the
    caller of the event that raised it and later events still arrive. *)
Fixpoint run (evs : list Event) (sys : System) : System * list CloseCallback :=
  match evs with
  | [] => (sys, [])
  | ev :: rest =>
      let res := handle ev sys in
      let '(sys', out) := run rest (after res) in
      (sys', fired res ++ out)
  end.

(** *** Vocabulary of the statements *)

(** The system with another reader state. *)
Definition with_reader (r : Reader.WebSocketMessageReader Listener) (sys : System)
  : System :=
  mkSystem r (disposeOnClose sys) (writers sys).

(** The writer after [write(f(m))] for each [m] of [ms], in order. *)
Definition writes_in_order (f : Message -> Message) (ms : list Message) (w : W) : W :=
  fold_left (fun w m => writer_write (f m) w) ms w.

Definition socket_message (m : string) : Event := OnSocket (Reader.SocketMessage m).

(** The callbacks given to [onClose] in a run of events. *)
Fixpoint registered (evs : list Event) : list CloseCallback :=
  match evs with
  | [] => []
  | OnClose cb :: rest => cb :: registered rest
  | _ :: rest => registered rest
  end.

Definition count (cb : CloseCallback) (l : list CloseCallback) : nat :=
  count_occ Nat.eq_dec l cb.

(** *** Listeners never touch the reader *)

Lemma dispatch_with_reader e r sys :
  dispatch e (with_reader r sys)
  = mkResult (Normal tt) (with_reader r (after (dispatch e sys))) (fired (dispatch e sys)).
Proof. destruct e; reflexivity. Qed.

Lemma dispatch_all_with_reader es : forall r sys,
  dispatch_all es (with_reader r sys)
  = mkResult (Normal tt) (with_reader r (after (dispatch_all es sys)))
             (fired (dispatch_all es sys)).
Proof.
  induction es as [|e es IH]; intros r sys; [reflexivity|].
  cbn [dispatch_all]. unfold bind.
  rewrite dispatch_with_reader. cbn [completion after fired].
  rewrite IH. cbn [completion after fired].
  destruct e; reflexivity.
Qed.

Lemma dispatch_all_normal es : forall sys,
  completion (dispatch_all es sys) = Normal tt.
Proof.
  induction es as [|e es IH]; intros sys; [reflexivity|].
  cbn [dispatch_all]. unfold bind.
  assert (N : completion (dispatch e sys) = Normal tt) by (destruct e; reflexivity).
  rewrite N. cbn [completion]. apply IH.
Qed.

Lemma dispatch_all_app es1 : forall es2 sys,
  dispatch_all (es1 ++ es2) sys
  = mkResult (Normal tt)
      (after (dispatch_all es2 (after (dispatch_all es1 sys))))
      (fired (dispatch_all es1 sys)
         ++ fired (dispatch_all es2 (after (dispatch_all es1 sys)))).
Proof.
  induction es1 as [|e es1 IH]; intros es2 sys.
  - cbn [app dispatch_all ret after fired].
    pose proof (dispatch_all_normal es2 sys) as N.
    destruct (dispatch_all es2 sys) as [c a f]. cbn in *. now subst.
  - cbn [app dispatch_all]. unfold bind.
    assert (N : completion (dispatch e sys) = Normal tt) by (destruct e; reflexivity).
    rewrite N, IH. cbn [completion after fired]. now rewrite app_assoc.
Qed.

(** Events on the reader, one by one, amount to the reader's own run followed
    by the listeners' work on its trace. *)
Lemma run_on_socket acts : forall sys,
  run (List.map OnSocket acts) sys
  = (with_reader (fst (Reader.run JSON_parse same_listener acts (reader sys)))
       (after (dispatch_all
                 (snd (Reader.run JSON_parse same_listener acts (reader sys))) sys)),
     fired (dispatch_all
              (snd (Reader.run JSON_parse same_listener acts (reader sys))) sys)).
Proof.
  induction acts as [|a acts IH]; intros sys; [reflexivity|].
  cbn [List.map run Reader.run handle]. unfold on_reader at 1 2.
  cbn [after fired]. rewrite IH. clear IH.
  set (res := Reader.perform JSON_parse same_listener a (reader sys)).
  change (mkSystem (after res) (disposeOnClose sys) (writers sys))
    with (with_reader (after res) sys).
  rewrite dispatch_all_with_reader. cbn [after fired reader with_reader].
  destruct (Reader.run JSON_parse same_listener acts (after res)) as [r' out].
  cbn [fst snd].
  rewrite (dispatch_all_app (fired res) out sys). cbn [after fired].
  set (sys1 := after (dispatch_all (fired res) sys)).
  change (mkSystem (after res) (disposeOnClose sys1) (writers sys1))
    with (with_reader (after res) sys1).
  rewrite dispatch_all_with_reader. cbn [after fired]. reflexivity.
Qed.

(** *** Forwarding *)

Lemma update_same ws c w : update ws c w c = w.
Proof. unfold update. now rewrite Nat.eqb_refl. Qed.

Lemma update_other ws c w c' : c' <> c -> update ws c w c' = ws c'.
Proof.
  intros H. unfold update. destruct (Nat.eqb_spec c' c); [contradiction|reflexivity].
Qed.

Lemma dispatch_deliveries l ms : forall sys,
  let res := dispatch_all (List.map (Reader.CallbackInvoked l) ms) sys in
  reader (after res) = reader sys
  /\ disposeOnClose (after res) = disposeOnClose sys
  /\ fired res = []
  /\ writers (after res) (to l) = writes_in_order (map_message l) ms (writers sys (to l))
  /\ (forall t', t' <> to l -> writers (after res) t' = writers sys t').
Proof.
  induction ms as [|m ms IH]; intros sys; cbn zeta.
  - cbn. repeat split.
  - cbn [List.map dispatch_all dispatch]. unfold bind.
    cbn [call_listener completion after fired].
    set (sys1 := mkSystem _ _ _).
    destruct (IH sys1) as (R & G & F & Wt & Wo). cbn zeta in *.
    rewrite R, G, F, Wt. unfold sys1. cbn [reader disposeOnClose writers].
    rewrite update_same.
    split; [reflexivity|]. split; [reflexivity|]. split; [reflexivity|].
    split; [reflexivity|].
    intros t' Ht. etransitivity; [exact (Wo t' Ht)|].
    unfold sys1. cbn [writers]. now apply update_other.
Qed.

Lemma run_events_app evs1 : forall evs2 sys,
  run (evs1 ++ evs2) sys
  = (fst (run evs2 (fst (run evs1 sys))),
     snd (run evs1 sys) ++ snd (run evs2 (fst (run evs1 sys)))).
Proof.
  induction evs1 as [|ev evs1 IH]; intros evs2 sys; cbn [app run].
  - cbn [fst snd app]. now destruct (run evs2 sys).
  - rewrite IH.
    destruct (run evs1 (after (handle ev sys))) as [s1 o1]. cbn [fst snd].
    now rewrite app_assoc.
Qed.

Lemma forward_is_listen fresh t map rest sys :
  run (Forward fresh t map :: rest) sys
  = run (OnSocket (Reader.Listen (mkListener fresh t (default_map map))) :: rest) sys.
Proof. reflexivity. Qed.

(** C6 (as amended). Take a connection whose reader has no listener yet and
    has only JSON messages in its queue, if any. After [forward(t, map)] every
    message received on its reader, the queued ones first and then those that
    arrive, is written to the writer of [t] in arrival order: as [map(m)], and
    as [m] itself when no [map] is given. No other writer is written to. *)
Theorem forward_writes_each_message_in_order
    (fresh : nat) (t : ConnectionRef) (map : option (Message -> Message))
    (queued arriving : list string) (ms ms' : list Message)
    (ws : ConnectionRef -> W) :
  JSON_parse "" = None ->
  List.map JSON_parse queued = List.map Some ms ->
  List.map JSON_parse arriving = List.map Some ms' ->
  let c := createConnection Reader.new_reader ws in
  let evs :=
    List.map socket_message queued
      ++ Forward fresh t map :: List.map socket_message arriving in
  writers (fst (run evs c)) t
  = writes_in_order (default_map map) (ms ++ ms') (ws t)
  /\ (map = None ->
      writers (fst (run evs c)) t = fold_left (fun w m => writer_write m w) (ms ++ ms') (ws t))
  /\ (forall t', t' <> t -> writers (fst (run evs c)) t' = ws t')
  /\ snd (run evs c) = [].
Proof.
  intros Hempty Hq Ha c evs.
  set (l := mkListener fresh t (default_map map)).
  assert (E : run evs c
              = run (List.map OnSocket
                       (List.map Reader.SocketMessage queued
                          ++ Reader.Listen l :: List.map Reader.SocketMessage arriving)) c).
  { unfold evs, socket_message. rewrite map_app. cbn [List.map].
    rewrite !map_map, !run_events_app. now rewrite forward_is_listen. }
  assert (R : run evs c
              = (with_reader (Reader.mkReader Reader.listening (Some l) [])
                   (after (dispatch_all
                             (List.map (Reader.CallbackInvoked l) (ms ++ ms')) c)),
                 fired (dispatch_all
                          (List.map (Reader.CallbackInvoked l) (ms ++ ms')) c))).
  { rewrite E, run_on_socket.
    change (reader c) with (@Reader.new_reader Listener).
    now rewrite (Reader.run_buffer_listen_live Message JSON_parse Listener same_listener
                   l Hempty queued arriving ms ms' Hq Ha). }
  destruct (dispatch_deliveries l (ms ++ ms') c) as (_ & _ & F & Wt & Wo).
  cbn zeta in *. rewrite R. cbn [fst snd with_reader writers].
  split; [exact Wt|]. split; [|split].
  - intros ->. exact Wt.
  - exact Wo.
  - exact F.
Qed.

(** *** Closing *)

Lemma count_app cb l1 l2 : count cb (l1 ++ l2) = count cb l1 + count cb l2.
Proof. apply count_occ_app. Qed.

Lemma count_nil cb : count cb [] = 0.
Proof. reflexivity. Qed.

Lemma count_cons cb cb' l :
  count cb (cb' :: l) = (if Nat.eq_dec cb' cb then 1 else 0) + count cb l.
Proof. unfold count. cbn. now destruct (Nat.eq_dec cb' cb). Qed.

Lemma close_listener_conserves sys cb :
  count cb (fired (close_listener sys))
    + count cb (disposables (disposeOnClose (after (close_listener sys))))
  = count cb (disposables (disposeOnClose sys)).
Proof.
  cbn [close_listener dispose_collection fired after disposeOnClose disposables].
  rewrite count_nil. lia.
Qed.

Lemma dispatch_conserves e cb sys :
  completion (dispatch e sys) = Normal tt
  /\ count cb (fired (dispatch e sys))
       + count cb (disposables (disposeOnClose (after (dispatch e sys))))
     = count cb (disposables (disposeOnClose sys)).
Proof.
  destruct e as [l d|e|]; cbn [dispatch]; (split; [reflexivity|]).
  - reflexivity.
  - reflexivity.
  - apply close_listener_conserves.
Qed.

Lemma dispatch_all_conserves es cb : forall sys,
  count cb (fired (dispatch_all es sys))
    + count cb (disposables (disposeOnClose (after (dispatch_all es sys))))
  = count cb (disposables (disposeOnClose sys)).
Proof.
  induction es as [|e es IH]; intros sys; [reflexivity|].
  cbn [dispatch_all]. unfold bind.
  destruct (dispatch_conserves e cb sys) as [N C].
  rewrite N. cbn [completion after fired].
  specialize (IH (after (dispatch e sys))).
  rewrite count_app. lia.
Qed.

Lemma handle_conserves ev cb sys :
  count cb (fired (handle ev sys))
    + count cb (disposables (disposeOnClose (after (handle ev sys))))
  = count cb (disposables (disposeOnClose sys)) + count cb (registered [ev]).
Proof.
  destruct ev as [a|fresh t map|cb'|src]; cbn [handle registered].
  - unfold on_reader. cbn [after fired].
    rewrite dispatch_all_conserves, count_nil. cbn [disposeOnClose]. lia.
  - unfold forward, on_reader. cbn [after fired].
    rewrite dispatch_all_conserves, count_nil. cbn [disposeOnClose]. lia.
  - cbn [onClose after fired disposeOnClose push disposables].
    rewrite count_app, !count_cons, !count_nil. lia.
  - destruct src; cbn [signal_close]; rewrite close_listener_conserves, count_nil; lia.
Qed.

Lemma registered_cons ev evs cb :
  count cb (registered (ev :: evs)) = count cb (registered [ev]) + count cb (registered evs).
Proof.
  destruct ev; cbn [registered]; rewrite ?count_cons, ?count_nil; lia.
Qed.

(** Every registration is pending or has fired once: nothing fires twice. *)
Lemma run_conserves evs cb : forall sys,
  count cb (snd (run evs sys))
    + count cb (disposables (disposeOnClose (fst (run evs sys))))
  = count cb (disposables (disposeOnClose sys)) + count cb (registered evs).
Proof.
  induction evs as [|ev evs IH]; intros sys.
  - cbn [run registered fst snd]. rewrite count_nil. lia.
  - rewrite registered_cons. cbn [run].
    specialize (IH (after (handle ev sys))).
    pose proof (handle_conserves ev cb sys) as H.
    destruct (run evs (after (handle ev sys))) as [sys' out]. cbn [fst snd] in *.
    rewrite count_app. lia.
Qed.

Lemma run_registers cbs : forall sys,
  run (List.map OnClose cbs) sys
  = (mkSystem (reader sys)
       (mkCollection (disposables (disposeOnClose sys) ++ cbs)) (writers sys), []).
Proof.
  induction cbs as [|cb cbs IH]; intros sys; cbn [List.map run handle].
  - rewrite app_nil_r. now destruct sys as [r [g] ws].
  - rewrite IH. cbn. now rewrite <- app_assoc.
Qed.

Lemma run_closes_empty srcs : forall r ws,
  run (List.map Closes srcs) (mkSystem r (mkCollection []) ws)
  = (mkSystem r (mkCollection []) ws, []).
Proof.
  induction srcs as [|src srcs IH]; intros r ws; [reflexivity|].
  cbn [List.map run handle]. destruct src; cbn; now rewrite IH.
Qed.

(** C8. Register any callbacks with [onClose] on a new connection and let the
    reader close, the writer close, or both, in any order and any number of
    times: the callbacks that fire are the registered ones, each registration
    once, all at the first close; the group is empty afterwards. In every run
    of events a registration has either fired once or is still pending. *)
Theorem onClose_callbacks_fire_once
    (cbs : list CloseCallback) (src : CloseSource) (more : list CloseSource)
    (r : Reader.WebSocketMessageReader Listener) (ws : ConnectionRef -> W) :
  let c := createConnection r ws in
  let evs := List.map OnClose cbs ++ List.map Closes (src :: more) in
  Permutation (snd (run evs c)) cbs
  /\ (forall cb, count cb (snd (run evs c)) = count cb cbs)
  /\ (forall cb, NoDup cbs -> In cb cbs -> count cb (snd (run evs c)) = 1)
  /\ snd (run (List.map OnClose cbs ++ [Closes src]) c) = snd (run evs c)
  /\ disposables (disposeOnClose (fst (run evs c))) = []
  /\ (forall evs' sys cb,
        count cb (snd (run evs' sys))
          + count cb (disposables (disposeOnClose (fst (run evs' sys))))
        = count cb (disposables (disposeOnClose sys)) + count cb (registered evs')).
Proof.
  intros c evs.
  assert (One : forall tail,
            run (List.map OnClose cbs ++ Closes src :: List.map Closes tail) c
            = (mkSystem r (mkCollection []) ws, cbs)).
  { intros tail. rewrite run_events_app, run_registers. cbn [fst snd app].
    cbn [run handle]. unfold c.
    destruct src; cbn [signal_close close_listener dispose_collection
                         createConnection reader disposeOnClose writers disposables
                         after fired app];
      rewrite run_closes_empty; cbn [fst snd]; now rewrite app_nil_r. }
  assert (R : run evs c = (mkSystem r (mkCollection []) ws, cbs)) by apply (One more).
  rewrite R. cbn [fst snd].
  split; [apply Permutation_refl|]. split; [reflexivity|]. split; [|split; [|split]].
  - intros cb ND I. unfold count. now apply NoDup_count_occ'.
  - pose proof (One []) as O. cbn [List.map] in O. now rewrite O.
  - reflexivity.
  - intros evs' sys cb. apply run_conserves.
Qed.

(** With the [WebSocketMessageReader] as the reader, the reader's close is a
    socket close reaching it while it listens. *)
Lemma socket_close_fires_onClose cbs l qs code reason ws :
  snd (run (List.map OnClose cbs ++ [OnSocket (Reader.SocketClose code reason)])
         (createConnection (Reader.mkReader Reader.listening l qs) ws))
  = cbs.
Proof.
  rewrite run_events_app, run_registers. cbn [fst snd app run handle].
  unfold on_reader. cbn [Reader.perform reader createConnection].
  rewrite Reader.socket_onClose_listening. cbn [after fired].
  destruct (code =? 1000)%Z; cbn; now rewrite !app_nil_r.
Qed.

End WithWriters.

Arguments mkListener {Message}.
Arguments createConnection {Message W}.
Arguments mkSystem {Message W}.
Arguments reader {Message W}.
Arguments disposeOnClose {Message W}.
Arguments writers {Message W}.
Arguments OnSocket {Message}.
Arguments Forward {Message}.
Arguments OnClose {Message}.
Arguments Closes {Message}.
Arguments socket_message {Message}.
Arguments run {Message} JSON_parse {W target_writer}.
Arguments writes_in_order {Message W target_writer}.

(** A writer that records what it is asked to write. *)
#[global] Instance recording_writer (Message : Type)
  : MessageWriter Message (list Message) :=
  {| writer_write := fun msg written => written ++ [msg] |}.

End Connection.

(** ** launch.ts: a connection over one socket *)

Module Launch.
Section WithSocket.

Variable Message : Type.
Variable JSON_stringify : Message -> Outcome string.
Variable Socket : Type.
Variable socket_send : string -> Socket -> Outcome unit * Socket.

(** [WebSocketMessageWriter] behind the [MessageWriter] interface. Its
    write-error events go to the writer's own error listeners, of which
    [createConnection] registers none. *)
#[local] Instance websocket_writer
  : Connection.MessageWriter Message (Writer.WebSocketMessageWriter Socket) :=
  {| Connection.writer_write := fun msg w =>
       after (Writer.write JSON_stringify socket_send msg w) |}.

(** [createWebSocketConnection(socket)], with the writers of the connections
    it may forward to: each a new [WebSocketMessageWriter] on its own socket. *)
Definition createWebSocketConnection (sockets : Connection.ConnectionRef -> Socket)
  : @Connection.System Message (Writer.WebSocketMessageWriter Socket) :=
  Connection.createConnection Reader.new_reader
    (fun c => Writer.new_writer (sockets c)).

(** Forwarding into such a writer is a run of [write] calls on it. *)
Lemma writes_in_order_is_write_all (f : Message -> Message) (ms : list Message) :
  forall w : Writer.WebSocketMessageWriter Socket,
  Connection.writes_in_order f ms w
  = after (Writer.write_all JSON_stringify socket_send (map f ms) w).
Proof.
  induction ms as [|m ms IH]; intros w; [reflexivity|].
  cbn [map Writer.write_all]. unfold bind.
  rewrite Writer.write_detached. cbn [completion after].
  rewrite <- IH. reflexivity.
Qed.

End WithSocket.
End Launch.

(** ** PluginWebSocketChannel *)

Module Plugin.

(** [interface PluginMessage extends Message { jsonrpc: '0.0'; content: string }] *)
Record PluginMessage : Type := mkPluginMessage {
  jsonrpc : string;
  content : string
}.

(** [{ jsonrpc: '0.0', content }] *)
Definition envelope (content : string) : PluginMessage :=
  mkPluginMessage "0.0" content.

Section WithConnection.

(** The channel reaches the connection's writer through [write] and its
    reader through [listen]; [PluginMessageWriter] and [PluginMessageReader]
    themselves are outside these sources. *)
Context {W : Type} {connection_writer : Connection.MessageWriter PluginMessage W}.

(** [send(content)]. *)
Definition send (content : string) (w : W) : W :=
  let message := envelope content in
  Connection.writer_write PluginMessage message w.

(** The function object [onMessage] hands to [listen]:
    [(message: PluginMessage) => cb(message.content)]. *)
Definition unwrap {T : Type} (cb : string -> T) : PluginMessage -> T :=
  fun message => cb (content message).

(** [onMessage(cb)], for a reader whose [listen] is given. *)
Definition onMessage {R T : Type} (listen : (PluginMessage -> T) -> R -> R)
    (cb : string -> T) : R -> R :=
  listen (unwrap cb).

(** [send] called on each string in turn. *)
Definition send_all (contents : list string) (w : W) : W :=
  fold_left (fun w content => send content w) contents w.

End WithConnection.

Lemma send_all_recorded contents : forall written : list PluginMessage,
  send_all contents written = written ++ map envelope contents.
Proof.
  induction contents as [|s contents IH]; intros written; cbn.
  - now rewrite app_nil_r.
  - unfold send_all in IH. rewrite IH. unfold send. cbn.
    now rewrite <- app_assoc.
Qed.

(** C7. [send s] hands the connection's writer exactly the envelope
    [{jsonrpc: "0.0", content: s}], whatever the writer is; the listener
    [onMessage cb] registers, applied to that envelope, calls [cb] on exactly
    [s]. So a run of sends, read back through such a listener, gives [cb] the
    strings sent, in order. The tag is not the JSON-RPC version. *)
Theorem send_then_unwrap_is_identity (T : Type) (cb : string -> T) (contents : list string) :
  (forall W (writer : Connection.MessageWriter PluginMessage W) (s : string) (w : W),
     send s w = Connection.writer_write PluginMessage (mkPluginMessage "0.0" s) w)
  /\ (forall s (written : list PluginMessage),
        send s written = written ++ [mkPluginMessage "0.0" s])
  /\ (forall s, unwrap cb (envelope s) = cb s)
  /\ (forall R (listen : (PluginMessage -> T) -> R -> R) (r : R),
        onMessage listen cb r = listen (fun message => cb (content message)) r)
  /\ map (unwrap cb) (send_all contents []) = map cb contents
  /\ (forall s, jsonrpc (envelope s) <> "2.0").
Proof.
  split; [reflexivity|]. split; [reflexivity|]. split; [reflexivity|].
  split; [reflexivity|]. split.
  - rewrite send_all_recorded. cbn [app]. rewrite map_map.
    apply map_ext. reflexivity.
  - intros s. cbn. discriminate.
Qed.

End Plugin.

(** ** The layer at work on concrete inputs

    The decoder used is [JSON.parse] on the texts that are integer literals of JSON
    ([-]? then [0] or a digit string not starting with [0]). Every other text
    is reported as undecodable; the examples below only rely on that for
    ["{"] and for the empty text, which [JSON.parse] rejects too. *)

Module Sample.

Definition digit (c : Ascii.ascii) : option Z :=
  let n := Ascii.nat_of_ascii c in
  if (48 <=? n)%nat && (n <=? 57)%nat then Some (Z.of_nat (n - 48)) else None.

Fixpoint digits (s : string) (acc : Z) : option Z :=
  match s with
  | EmptyString => Some acc
  | String c rest =>
      match digit c with
      | Some d => digits rest (10 * acc + d)%Z
      | None => None
      end
  end.

Definition unsigned (s : string) : option Z :=
  match s with
  | EmptyString => None
  | String "0"%char EmptyString => Some 0%Z
  | String "0"%char _ => None
  | _ => digits s 0
  end.

Definition parse_integer (s : string) : option Z :=
  match s with
  | String "-"%char rest => option_map Z.opp (unsigned rest)
  | _ => unsigned s
  end.

Import Reader.

(** C1, at an input: two messages before [listen], one after. *)
Lemma listen_replays_buffered_messages_in_order_witness :
  (parse_integer "" = None
   /\ map parse_integer ["1"; "22"] = map Some [1; 22]%Z
   /\ map parse_integer ["3"] = map Some [3]%Z)
  /\ run parse_integer Nat.eqb
       (map SocketMessage ["1"; "22"] ++ Listen 7 :: map SocketMessage ["3"])
       new_reader
     = (mkReader listening (Some 7) [],
        map (CallbackInvoked 7) [1; 22]%Z ++ map (CallbackInvoked 7) [3]%Z).
Proof.
  split; [repeat split|].
  exact (proj2 (proj2
    (listen_replays_buffered_messages_in_order Z parse_integer nat Nat.eqb
       ["1"; "22"] ["3"] [1; 22]%Z [3]%Z 7 eq_refl eq_refl eq_refl))).
Defined.

(** C1 as it is stated fails: three messages are buffered, the second is not
    JSON. [listen] invokes the callback once, for the first, and is left by
    the [SyntaxError] of the second; the third stays in the queue and no later
    call replays it. *)
Lemma listen_stops_at_undecodable_message :
  let buffered :=
    fst (run parse_integer Nat.eqb (map SocketMessage ["1"; "{"; "2"]) new_reader) in
  let res := listen parse_integer 7 buffered in
  completion res = Throw SyntaxError
  /\ fired res = [CallbackInvoked 7 1%Z]
  /\ after res = mkReader listening (Some 7) [message_entry "2"]
  /\ ~ (exists ds : list Z,
          List.length ds = List.length ["1"; "{"; "2"]
          /\ fired res = map (CallbackInvoked 7) ds)
  /\ snd (run parse_integer Nat.eqb [Listen 7; Listen 8] (after res)) = [].
Proof.
  cbn zeta. repeat split.
  intros (ds & L & F). vm_compute in F.
  destruct ds as [|d1 [|d2 [|d3 [|d4 ds]]]]; cbn in L; discriminate.
Qed.

(** C2, at an input: a message, then a clean close, both before [listen]. The
    later [listen] delivers nothing and the two entries stay queued. *)
Lemma close_before_listen_strands_the_queue_example :
  run parse_integer Nat.eqb
    [SocketMessage "1"; SocketClose 1000 ""; Listen 7; SocketMessage "2"]
    new_reader
  = (mkReader closed None [close_marker; message_entry "1"], []).
Proof. reflexivity. Qed.

(** C9, at an input: [listen 8] on a reader listening with callback 7. *)
Lemma second_listen_is_ignored_witness :
  Nat.eqb 7 8 = false
  /\ run parse_integer Nat.eqb
       (Listen 8 :: Dispose (mkDisposable 8) :: map SocketMessage ["1"; "2"])
       (mkReader listening (Some 7) [])
     = (mkReader listening (Some 7) [], map (CallbackInvoked 7) [1; 2]%Z).
Proof.
  split; [reflexivity|].
  exact (proj1 (proj2 (proj2
    (second_listen_is_ignored Z parse_integer nat Nat.eqb 7 8 [] eq_refl)))
    ["1"; "2"] [1; 2]%Z eq_refl).
Defined.

(** C10, at an input: the empty message arrives second of three. *)
Lemma empty_message_is_replayed_as_close_witness :
  (parse_integer "" = None /\ map parse_integer ["1"] = map Some [1]%Z)
  /\ run parse_integer Nat.eqb
       (map SocketMessage (["1"] ++ "" :: ["2"]) ++ [Listen 7]) new_reader
     = (mkReader closed (Some 7) [], map (CallbackInvoked 7) [1]%Z ++ [CloseFired]).
Proof.
  split; [split; reflexivity|].
  exact (proj2 (proj2
    (empty_message_is_replayed_as_close Z parse_integer nat Nat.eqb
       ["1"] ["2"] [1]%Z 7 eq_refl eq_refl))).
Defined.

(** A socket that accepts sends while it is open and raises once it is not. *)
Record TestSocket : Type := mkTestSocket {
  is_open : bool;
  sent : list string
}.

Definition test_send (content : string) (sock : TestSocket)
  : Outcome unit * TestSocket :=
  if is_open sock
  then (Returned tt, mkTestSocket true (sent sock ++ [content]))
  else (Raised (ThrownValue (JsString "socket is closed")), sock).

(** Messages are integers, or a value [JSON.stringify] raises on. *)
Definition test_stringify (msg : option Z) : Outcome string :=
  match msg with
  | Some z => Returned (number_to_string z)
  | None => Raised TypeError
  end.




(** C6, at an input: one message queued before [forward], two after, with a
    transform. *)
Lemma forward_writes_each_message_in_order_witness :
  (parse_integer "" = None
   /\ map parse_integer ["1"] = map Some [1]%Z
   /\ map parse_integer ["2"; "3"] = map Some [2; 3]%Z)
  /\ Connection.writers
       (fst (Connection.run parse_integer
               (map Connection.socket_message ["1"]
                  ++ Connection.Forward 0 5 (Some Z.succ)
                  :: map Connection.socket_message ["2"; "3"])
               (Connection.createConnection new_reader (fun _ => []))))
       5
     = [2; 3; 4]%Z.
Proof.
  split; [repeat split|].
  exact (proj1
    (Connection.forward_writes_each_message_in_order Z parse_integer
       0 5 (Some Z.succ) ["1"] ["2"; "3"] [1]%Z [2; 3]%Z (fun _ => [])
       eq_refl eq_refl eq_refl)).
Defined.

(** C6 as it is stated fails: the connection already forwards to connection 1
    when [forward] is called for connection 2. The second [listen] is ignored,
    so the message that arrives is written to 1 and nothing is written to 2. *)
Lemma second_forward_writes_nothing :
  let c := Connection.createConnection (W := list Z) new_reader (fun _ => []) in
  let sys :=
    fst (Connection.run parse_integer
           [Connection.Forward 0 1 None; Connection.Forward 1 2 None;
            Connection.socket_message "5"] c) in
  Connection.writers sys 1 = [5]%Z
  /\ Connection.writers sys 2 = []
  /\ Connection.writers sys 2 <> [5]%Z.
Proof.
  cbn zeta. vm_compute. repeat split. discriminate.
Qed.

(** C8, at an input: two callbacks, then the reader and the writer both close. *)
Lemma onClose_callbacks_fire_once_witness :
  snd (Connection.run parse_integer (W := list Z)
         (map Connection.OnClose [11; 12]
            ++ map Connection.Closes [Connection.FromReader; Connection.FromWriter])
         (Connection.createConnection new_reader (fun _ => [])))
  = [11; 12]
  /\ Connection.count 11
       (snd (Connection.run parse_integer (W := list Z)
               (map Connection.OnClose [11; 12]
                  ++ map Connection.Closes [Connection.FromReader; Connection.FromWriter])
               (Connection.createConnection new_reader (fun _ => []))))
     = 1.
Proof.
  split; [reflexivity|].
  apply (proj1 (proj2 (proj2
    (Connection.onClose_callbacks_fire_once Z parse_integer
       [11; 12] Connection.FromReader [Connection.FromWriter]
       new_reader (fun _ => [])))) 11).
  - repeat constructor; cbn; intuition discriminate.
  - now left.
Defined.

End Sample.

(** ** arrays.ts: [sortedDiff] and the splices it computes *)

(** What [compare] returns: a JavaScript number. The loop only tests it
    against zero, and all three tests fail on [NaN]. *)
Inductive number : Type :=
| Num (z : Z)
| NaN.

Module Arrays.
Section WithElements.

Variable T : Type.
Variable compare : T -> T -> number.

(** [interface Splice<T> { start; deleteCount; toInsert }] *)
Record Splice : Type := mkSplice {
  start : nat;
  deleteCount : nat;
  toInsert : list T
}.

(** [pushSplice(start, deleteCount, toInsert)] on [result]. [latest] is the
    last element of [result], if any; the merge updates it in place. *)
Definition pushSplice (start0 deleteCount0 : nat) (toInsert0 : list T)
    (result : list Splice) : list Splice :=
  if (deleteCount0 =? 0)%nat && (List.length toInsert0 =? 0)%nat then result
  else
    match pop result with
    | Some (latest, earlier) =>
        if (start latest + deleteCount latest =? start0)%nat
        then earlier ++ [mkSplice (start latest)
                           (deleteCount latest + deleteCount0)
                           (toInsert latest ++ toInsert0)]
        else result ++ [mkSplice start0 deleteCount0 toInsert0]
    | None => result ++ [mkSplice start0 deleteCount0 toInsert0]
    end.

(** The [while (true)] loop, with a bound on its iterations; [None] is the
    loop still running when the bound is reached. An index is never read
    beyond its array: the two length tests come first. *)
Fixpoint sortedDiff_loop (fuel : nat) (before after : list T)
    (beforeIdx afterIdx : nat) (result : list Splice) : option (list Splice) :=
  match fuel with
  | O => None
  | S fuel' =>
      if (beforeIdx =? List.length before)%nat
      then Some (pushSplice beforeIdx 0 (skipn afterIdx after) result)
      else if (afterIdx =? List.length after)%nat
      then Some (pushSplice beforeIdx (List.length before - beforeIdx) [] result)
      else
        match nth_error before beforeIdx, nth_error after afterIdx with
        | Some beforeElement, Some afterElement =>
            match compare beforeElement afterElement with
            | Num n =>
                if (n =? 0)%Z
                then sortedDiff_loop fuel' before after
                       (beforeIdx + 1) (afterIdx + 1) result
                else if (n <? 0)%Z
                then sortedDiff_loop fuel' before after
                       (beforeIdx + 1) afterIdx
                       (pushSplice beforeIdx 1 [] result)
                else sortedDiff_loop fuel' before after
                       beforeIdx (afterIdx + 1)
                       (pushSplice beforeIdx 0 [afterElement] result)
            | NaN => sortedDiff_loop fuel' before after beforeIdx afterIdx result
            end
        | _, _ => None
        end
  end.

(** Every iteration but the last moves one of the two indices forward, so
    the loop needs at most one iteration per element and one more. *)
Definition sortedDiff (before after : list T) : option (list Splice) :=
  sortedDiff_loop (List.length before + List.length after + 1) before after 0 0 [].

(** [array.splice(start, deleteCount, ...items)] on a list. *)
Definition splice (start0 deleteCount0 : nat) (items l : list T) : list T :=
  firstn start0 l ++ items ++ skipn (start0 + deleteCount0) l.

(** Applying a diff. The splices give positions in the array the diff was
    computed from, so they are applied from the last to the first. *)
Definition apply_splices (splices : list Splice) (l : list T) : list T :=
  fold_left (fun l s => splice (start s) (deleteCount s) (toInsert s) l)
    (rev splices) l.

(** The loop on what is left of the two arrays: the same steps, by recursion
    on the remainders [before.slice(beforeIdx)] and [after.slice(afterIdx)]. *)
Fixpoint diff_from (bs : list T) : list T -> nat -> list Splice -> option (list Splice) :=
  fix on_after (rest : list T) (beforeIdx : nat) (result : list Splice)
    : option (list Splice) :=
    match bs with
    | [] => Some (pushSplice beforeIdx 0 rest result)
    | b :: bs' =>
        match rest with
        | [] => Some (pushSplice beforeIdx (List.length bs) [] result)
        | a :: rest' =>
            match compare b a with
            | Num n =>
                if (n =? 0)%Z then diff_from bs' rest' (beforeIdx + 1) result
                else if (n <? 0)%Z
                then diff_from bs' rest (beforeIdx + 1)
                       (pushSplice beforeIdx 1 [] result)
                else on_after rest' beforeIdx
                       (pushSplice beforeIdx 0 [a] result)
            | NaN => None
            end
        end
    end.

Definition nonempty (s : Splice) : Prop :=
  deleteCount s <> 0 \/ toInsert s <> [].

Definition total_deleted (splices : list Splice) : nat :=
  list_sum (map deleteCount splices).

Definition total_inserted (splices : list Splice) : nat :=
  list_sum (map (fun s => List.length (toInsert s)) splices).

(** [compare] never answers [NaN]. *)
Definition numeric : Prop := forall x y, compare x y <> NaN.

(** Where a splice ends in the array it was computed from. *)
Definition splice_end (s : Splice) : nat := start s + deleteCount s.

(** Splices from the newest to the oldest, each ending strictly before [p]
    and before the start of the one recorded after it. *)
Fixpoint strictly_spaced (newest_first : list Splice) (p : nat) : Prop :=
  match newest_first with
  | [] => True
  | s :: older =>
      nonempty s /\ splice_end s < p /\ strictly_spaced older (start s)
  end.

(** The same, the newest splice being allowed to end at [bound] itself. *)
Definition spaced_up_to (newest_first : list Splice) (bound : nat) : Prop :=
  match newest_first with
  | [] => True
  | s :: older =>
      nonempty s /\ splice_end s <= bound /\ strictly_spaced older (start s)
  end.

(** *** The loop and the recursion on the remainders agree *)

Lemma diff_from_nil rest beforeIdx result :
  diff_from [] rest beforeIdx result = Some (pushSplice beforeIdx 0 rest result).
Proof. destruct rest; reflexivity. Qed.

Lemma diff_from_cons_nil b bs beforeIdx result :
  diff_from (b :: bs) [] beforeIdx result
  = Some (pushSplice beforeIdx (List.length (b :: bs)) [] result).
Proof. reflexivity. Qed.

Lemma diff_from_cons_cons b bs a rest beforeIdx result :
  diff_from (b :: bs) (a :: rest) beforeIdx result
  = match compare b a with
    | Num n =>
        if (n =? 0)%Z then diff_from bs rest (beforeIdx + 1) result
        else if (n <? 0)%Z
        then diff_from bs (a :: rest) (beforeIdx + 1)
               (pushSplice beforeIdx 1 [] result)
        else diff_from (b :: bs) rest beforeIdx
               (pushSplice beforeIdx 0 [a] result)
    | NaN => None
    end.
Proof. reflexivity. Qed.

Lemma skipn_at (A : Type) (l : list A) : forall i,
  i < List.length l ->
  exists x, nth_error l i = Some x /\ skipn i l = x :: skipn (S i) l.
Proof.
  induction l as [|y l IH]; intros i H; [cbn in H; lia|].
  destruct i as [|i]; [exists y; split; reflexivity|].
  cbn in H. destruct (IH i) as (x & N & K); [lia|].
  exists x. split; [exact N|exact K].
Qed.

(** On [NaN] no branch is taken and the next iteration finds the same state. *)
Lemma loop_stuck_on_NaN before after beforeIdx afterIdx b a :
  nth_error before beforeIdx = Some b ->
  nth_error after afterIdx = Some a ->
  compare b a = NaN ->
  forall fuel result,
    sortedDiff_loop fuel before after beforeIdx afterIdx result = None.
Proof.
  intros Hb Ha Hn fuel. induction fuel as [|fuel IH]; intros result; [reflexivity|].
  cbn [sortedDiff_loop].
  assert (Lb : beforeIdx < List.length before)
    by (apply nth_error_Some; congruence).
  assert (La : afterIdx < List.length after)
    by (apply nth_error_Some; congruence).
  destruct (Nat.eqb_spec beforeIdx (List.length before)); [lia|].
  destruct (Nat.eqb_spec afterIdx (List.length after)); [lia|].
  rewrite Hb, Ha, Hn. apply IH.
Qed.

Lemma loop_is_diff_from before after : forall fuel beforeIdx afterIdx result,
  beforeIdx <= List.length before ->
  afterIdx <= List.length after ->
  (List.length before - beforeIdx) + (List.length after - afterIdx) < fuel ->
  sortedDiff_loop fuel before after beforeIdx afterIdx result
  = diff_from (skipn beforeIdx before) (skipn afterIdx after) beforeIdx result.
Proof.
  induction fuel as [|fuel IH]; intros bi ai R Lb La F; [lia|].
  cbn [sortedDiff_loop].
  destruct (Nat.eqb_spec bi (List.length before)) as [E|E].
  - subst bi. now rewrite skipn_all, diff_from_nil.
  - destruct (skipn_at _ before bi) as (b & Nb & Kb); [lia|].
    destruct (Nat.eqb_spec ai (List.length after)) as [E'|E'].
    + subst ai. rewrite skipn_all, Kb, diff_from_cons_nil.
      rewrite <- Kb, length_skipn. reflexivity.
    + destruct (skipn_at _ after ai) as (a & Na & Ka); [lia|].
      rewrite Nb, Na, Kb, Ka, diff_from_cons_cons.
      destruct (compare b a) as [n|] eqn:C.
      * destruct (n =? 0)%Z.
        { rewrite IH by lia. now rewrite !Nat.add_1_r. }
        destruct (n <? 0)%Z.
        { rewrite IH by lia. now rewrite Nat.add_1_r, Ka. }
        { rewrite IH by lia. now rewrite Nat.add_1_r, Kb. }
      * now apply (loop_stuck_on_NaN before after bi ai b a).
Qed.

Lemma sortedDiff_is_diff_from before after :
  sortedDiff before after = diff_from before after 0 [].
Proof.
  unfold sortedDiff. rewrite loop_is_diff_from by lia. reflexivity.
Qed.

(** *** Applying the splices *)

Lemma firstn_prefix (A : Type) (l r : list A) : firstn (List.length l) (l ++ r) = l.
Proof. induction l as [|x l IH]; cbn; [now destruct r|now rewrite IH]. Qed.

Lemma firstn_within (A : Type) (l r : list A) n :
  n <= List.length l -> firstn n (l ++ r) = firstn n l.
Proof.
  revert n. induction l as [|x l IH]; intros n H; cbn in *.
  - assert (n = 0) by lia. now subst.
  - destruct n as [|n]; [reflexivity|]. cbn. rewrite IH by lia. reflexivity.
Qed.

Lemma skipn_prefix (A : Type) (l r : list A) n :
  skipn (List.length l + n) (l ++ r) = skipn n r.
Proof. induction l as [|x l IH]; cbn; [reflexivity|exact IH]. Qed.

Lemma skipn_past (A : Type) (l r : list A) : skipn (List.length l) (l ++ r) = r.
Proof. induction l as [|x l IH]; cbn; [reflexivity|exact IH]. Qed.

Lemma apply_splices_snoc splices s l :
  apply_splices (splices ++ [s]) l
  = apply_splices splices (splice (start s) (deleteCount s) (toInsert s) l).
Proof. unfold apply_splices. now rewrite rev_unit. Qed.

Lemma pushSplice_nothing start0 result : pushSplice start0 0 [] result = result.
Proof. reflexivity. Qed.

(** What [pushSplice] does when it has something to record. *)
Lemma pushSplice_something start0 deleteCount0 toInsert0 result :
  deleteCount0 <> 0 \/ toInsert0 <> [] ->
  pushSplice start0 deleteCount0 toInsert0 result
  = match pop result with
    | Some (latest, earlier) =>
        if (start latest + deleteCount latest =? start0)%nat
        then earlier ++ [mkSplice (start latest)
                           (deleteCount latest + deleteCount0)
                           (toInsert latest ++ toInsert0)]
        else result ++ [mkSplice start0 deleteCount0 toInsert0]
    | None => result ++ [mkSplice start0 deleteCount0 toInsert0]
    end.
Proof.
  intros H. unfold pushSplice.
  destruct deleteCount0 as [|d]; [|reflexivity].
  destruct toInsert0 as [|x l]; [|reflexivity].
  destruct H; congruence.
Qed.

(** The splices recorded so far turn the part [pre] of [before] that the loop
    has passed into [out], whatever follows. *)
Definition turns (result : list Splice) (pre out : list T) : Prop :=
  forall X, apply_splices result (pre ++ X) = out ++ X.

Lemma pushSplice_turns pre dels ins result out :
  turns result pre out ->
  forall X,
    apply_splices (pushSplice (List.length pre) (List.length dels) ins result)
      (pre ++ dels ++ X)
    = out ++ ins ++ X.
Proof.
  intros H X.
  destruct (Nat.eq_dec (List.length dels) 0) as [D|D];
    [destruct ins as [|i ins]|].
  - apply length_zero_iff_nil in D. subst dels. cbn [List.length].
    rewrite pushSplice_nothing. apply H.
  - rewrite pushSplice_something by (right; discriminate).
    apply length_zero_iff_nil in D. subst dels. cbn [List.length app].
    destruct result as [|latest earlier _] using rev_ind.
    + cbn [pop rev app]. unfold apply_splices.
      cbn [rev app fold_left start deleteCount toInsert].
      unfold splice. rewrite firstn_prefix, Nat.add_0_r, skipn_past.
      apply (H (i :: ins ++ X)).
    + rewrite Reader.pop_snoc.
      destruct (Nat.eqb_spec (start latest + deleteCount latest) (List.length pre)) as [E|E].
      * rewrite apply_splices_snoc. cbn [start deleteCount toInsert].
        specialize (H ((i :: ins) ++ X)). rewrite apply_splices_snoc in H.
        etransitivity; [|exact H]. f_equal. unfold splice.
        rewrite !firstn_within by lia.
        rewrite Nat.add_0_r, E, !skipn_past.
        now rewrite <- !app_assoc.
      * rewrite apply_splices_snoc. cbn [start deleteCount toInsert].
        unfold splice at 1. rewrite firstn_prefix, Nat.add_0_r, skipn_past.
        apply (H ((i :: ins) ++ X)).
  - rewrite pushSplice_something by (left; exact D).
    destruct result as [|latest earlier _] using rev_ind.
    + cbn [pop rev app]. unfold apply_splices.
      cbn [rev app fold_left start deleteCount toInsert].
      unfold splice. rewrite firstn_prefix, skipn_prefix, skipn_past.
      apply (H (ins ++ X)).
    + rewrite Reader.pop_snoc.
      destruct (Nat.eqb_spec (start latest + deleteCount latest) (List.length pre)) as [E|E].
      * rewrite apply_splices_snoc. cbn [start deleteCount toInsert].
        specialize (H (ins ++ X)). rewrite apply_splices_snoc in H.
        etransitivity; [|exact H]. f_equal. unfold splice.
        rewrite !firstn_within by lia.
        rewrite Nat.add_assoc, E, skipn_prefix, !skipn_past.
        now rewrite <- !app_assoc.
      * rewrite apply_splices_snoc. cbn [start deleteCount toInsert].
        unfold splice at 1. rewrite firstn_prefix, skipn_prefix, skipn_past.
        apply (H (ins ++ X)).
Qed.

(** An element of the outcome is the element of [after] at its place, or an
    element of [before] that [compare] found equal to it. *)
Definition kept_or_new (o a : T) : Prop := o = a \/ compare o a = Num 0.

Lemma diff_from_turns bs : forall rest pre result out splices,
  turns result pre out ->
  diff_from bs rest (List.length pre) result = Some splices ->
  exists merged,
    Forall2 kept_or_new merged rest
    /\ forall X, apply_splices splices (pre ++ bs ++ X) = out ++ merged ++ X.
Proof.
  induction bs as [|b bs IHb]; intros rest.
  - intros pre result out splices H E. rewrite diff_from_nil in E.
    injection E as <-. exists rest. split.
    + clear. induction rest; constructor; [now left|assumption].
    + intros X. apply (pushSplice_turns pre [] rest result out H X).
  - induction rest as [|a rest IHa]; intros pre result out splices H E.
    + rewrite diff_from_cons_nil in E. injection E as <-.
      exists []. split; [constructor|].
      intros X. apply (pushSplice_turns pre (b :: bs) [] result out H X).
    + rewrite diff_from_cons_cons in E.
      destruct (compare b a) as [n|] eqn:C; [|discriminate].
      destruct (n =? 0)%Z eqn:Z0; [|destruct (n <? 0)%Z].
      * apply Z.eqb_eq in Z0. subst n.
        replace (List.length pre + 1) with (List.length (pre ++ [b])) in E
          by (rewrite length_app; reflexivity).
        destruct (IHb rest (pre ++ [b]) result (out ++ [b]) splices) as (m & F & A);
          [|exact E|].
        { intros X. rewrite <- !app_assoc. apply H. }
        exists (b :: m). split; [constructor; [now right|exact F]|].
        intros X. specialize (A X). rewrite <- !app_assoc in A. exact A.
      * replace (List.length pre + 1) with (List.length (pre ++ [b])) in E
          by (rewrite length_app; reflexivity).
        destruct (IHb (a :: rest) (pre ++ [b])
                    (pushSplice (List.length pre) 1 [] result) out splices)
          as (m & F & A); [|exact E|].
        { intros X. rewrite <- app_assoc.
          apply (pushSplice_turns pre [b] [] result out H X). }
        exists m. split; [exact F|].
        intros X. specialize (A X). rewrite <- !app_assoc in A. exact A.
      * destruct (IHa pre (pushSplice (List.length pre) 0 [a] result)
                    (out ++ [a]) splices) as (m & F & A); [|exact E|].
        { intros X. rewrite <- app_assoc.
          apply (pushSplice_turns pre [] [a] result out H X). }
        exists (a :: m). split; [constructor; [now left|exact F]|].
        intros X. specialize (A X). rewrite <- !app_assoc in A. exact A.
Qed.

(** With a [compare] that always answers a number the loop ends. *)
Lemma diff_from_returns (Hnum : numeric) bs : forall rest beforeIdx result,
  exists splices, diff_from bs rest beforeIdx result = Some splices.
Proof.
  induction bs as [|b bs IHb]; intros rest.
  - intros bi R. rewrite diff_from_nil. eauto.
  - induction rest as [|a rest IHa]; intros bi R.
    + rewrite diff_from_cons_nil. eauto.
    + rewrite diff_from_cons_cons.
      destruct (compare b a) as [n|] eqn:C; [|now destruct (Hnum b a)].
      destruct (n =? 0)%Z; [apply IHb|].
      destruct (n <? 0)%Z; [apply IHb|apply IHa].
Qed.

(** *** The shape of the result *)

Lemma spaced_up_to_mono rl b b' : b <= b' -> spaced_up_to rl b -> spaced_up_to rl b'.
Proof.
  destruct rl as [|s older]; [trivial|]. cbn. intros L (N & E & S).
  repeat split; trivial. lia.
Qed.

Lemma pushSplice_spaced start0 deleteCount0 toInsert0 result :
  spaced_up_to (rev result) start0 ->
  spaced_up_to (rev (pushSplice start0 deleteCount0 toInsert0 result))
    (start0 + deleteCount0).
Proof.
  intros H.
  destruct (Nat.eq_dec deleteCount0 0) as [D|D];
    [destruct toInsert0 as [|i ins]|].
  - subst. rewrite pushSplice_nothing.
    apply (spaced_up_to_mono _ start0); [lia|exact H].
  - subst. rewrite pushSplice_something by (right; discriminate).
    destruct result as [|latest earlier _] using rev_ind.
    + cbn. unfold nonempty, splice_end. cbn. repeat split; trivial.
      right. discriminate.
    + rewrite Reader.pop_snoc. rewrite rev_unit in H.
      destruct H as (N & E & S). unfold splice_end in E.
      destruct (Nat.eqb_spec (start latest + deleteCount latest) start0) as [M|M];
        rewrite rev_unit; cbn; unfold nonempty, splice_end; cbn.
      * repeat split; trivial; [|lia]. right. now destruct (toInsert latest).
      * rewrite rev_unit. cbn. unfold splice_end.
        repeat split; trivial; [right; discriminate|lia].
  - rewrite pushSplice_something by (left; exact D).
    destruct result as [|latest earlier _] using rev_ind.
    + cbn. unfold nonempty, splice_end. cbn. repeat split; trivial. now left.
    + rewrite Reader.pop_snoc. rewrite rev_unit in H.
      destruct H as (N & E & S). unfold splice_end in E.
      destruct (Nat.eqb_spec (start latest + deleteCount latest) start0) as [M|M];
        rewrite rev_unit; cbn; unfold nonempty, splice_end; cbn.
      * repeat split; trivial; [left|]; lia.
      * rewrite rev_unit. cbn. unfold splice_end.
        repeat split; trivial; [now left|lia].
Qed.

Lemma diff_from_spaced bs : forall rest beforeIdx result splices,
  spaced_up_to (rev result) beforeIdx ->
  diff_from bs rest beforeIdx result = Some splices ->
  spaced_up_to (rev splices) (beforeIdx + List.length bs).
Proof.
  induction bs as [|b bs IHb]; intros rest.
  - intros bi R sp H E. rewrite diff_from_nil in E. injection E as <-.
    cbn [List.length]. now apply pushSplice_spaced.
  - induction rest as [|a rest IHa]; intros bi R sp H E.
    + rewrite diff_from_cons_nil in E. injection E as <-.
      now apply pushSplice_spaced.
    + rewrite diff_from_cons_cons in E.
      destruct (compare b a) as [n|]; [|discriminate].
      destruct (n =? 0)%Z; [|destruct (n <? 0)%Z].
      * apply IHb in E; [|apply (spaced_up_to_mono _ bi); [lia|exact H]].
        cbn [List.length]. now replace (bi + S (List.length bs))
          with (bi + 1 + List.length bs) by lia.
      * apply IHb in E; [|now apply pushSplice_spaced].
        cbn [List.length]. now replace (bi + S (List.length bs))
          with (bi + 1 + List.length bs) by lia.
      * apply IHa in E; [exact E|].
        rewrite <- (Nat.add_0_r bi) at 2. now apply pushSplice_spaced.
Qed.

Lemma strictly_spaced_facts rl : forall p,
  strictly_spaced rl p ->
  Forall nonempty rl
  /\ Forall (fun s => splice_end s < p) rl
  /\ (forall l1 s2 s1 l2, rl = l1 ++ s2 :: s1 :: l2 -> splice_end s1 < start s2).
Proof.
  induction rl as [|s older IH]; intros p H.
  - repeat split; try constructor. intros [|? ?] ? ? ? E; discriminate.
  - destruct H as (N & E & S). destruct (IH _ S) as (F1 & F2 & F3).
    repeat split.
    + now constructor.
    + constructor; [exact E|].
      eapply Forall_impl; [|exact F2]. cbn. intros s0 L.
      unfold splice_end in *. lia.
    + intros l1 s2 s1 l2 Q. destruct l1 as [|x l1]; cbn in Q.
      * injection Q as Q1 Q2. subst s older. now inversion F2.
      * injection Q as _ Q. now apply (F3 l1 s2 s1 l2).
Qed.

(** *** What the splices add up to *)

Lemma total_deleted_snoc l s : total_deleted (l ++ [s]) = total_deleted l + deleteCount s.
Proof.
  unfold total_deleted. rewrite map_app, list_sum_app. cbn. lia.
Qed.

Lemma total_inserted_snoc l s :
  total_inserted (l ++ [s]) = total_inserted l + List.length (toInsert s).
Proof.
  unfold total_inserted. rewrite map_app, list_sum_app. cbn. lia.
Qed.

Lemma pushSplice_totals start0 deleteCount0 toInsert0 result :
  total_deleted (pushSplice start0 deleteCount0 toInsert0 result)
  = total_deleted result + deleteCount0
  /\ total_inserted (pushSplice start0 deleteCount0 toInsert0 result)
     = total_inserted result + List.length toInsert0.
Proof.
  unfold pushSplice.
  destruct ((deleteCount0 =? 0)%nat && (List.length toInsert0 =? 0)%nat) eqn:Z.
  - apply andb_true_iff in Z. destruct Z as [Z1 Z2].
    apply Nat.eqb_eq in Z1, Z2. rewrite Z1, Z2. lia.
  - destruct result as [|latest earlier _] using rev_ind.
    + cbn. unfold total_deleted, total_inserted. cbn. lia.
    + rewrite Reader.pop_snoc.
      destruct (start latest + deleteCount latest =? start0)%nat;
        rewrite !total_deleted_snoc, !total_inserted_snoc; cbn;
        rewrite ?length_app; lia.
Qed.

Lemma diff_from_totals bs : forall rest beforeIdx result splices,
  diff_from bs rest beforeIdx result = Some splices ->
  total_inserted splices + List.length bs + total_deleted result
  = total_inserted result + List.length rest + total_deleted splices.
Proof.
  induction bs as [|b bs IHb]; intros rest.
  - intros bi R sp E. rewrite diff_from_nil in E. injection E as <-.
    destruct (pushSplice_totals bi 0 rest R) as [-> ->]. cbn. lia.
  - induction rest as [|a rest IHa]; intros bi R sp E.
    + rewrite diff_from_cons_nil in E. injection E as <-.
      destruct (pushSplice_totals bi (List.length (b :: bs)) [] R) as [D I].
      cbn [List.length] in *. lia.
    + rewrite diff_from_cons_cons in E.
      destruct (compare b a) as [n|]; [|discriminate].
      destruct (n =? 0)%Z; [|destruct (n <? 0)%Z].
      * apply IHb in E. cbn [List.length]. lia.
      * apply IHb in E.
        destruct (pushSplice_totals bi 1 [] R) as [D I]. rewrite D, I in E.
        cbn [List.length] in *. lia.
      * apply IHa in E.
        destruct (pushSplice_totals bi 0 [a] R) as [D I]. rewrite D, I in E.
        cbn [List.length] in *. lia.
Qed.

(** *** No splice at all *)

Lemma pushSplice_not_nil start0 deleteCount0 toInsert0 result :
  result <> [] \/ deleteCount0 <> 0 \/ toInsert0 <> [] ->
  pushSplice start0 deleteCount0 toInsert0 result <> [].
Proof.
  intros H.
  destruct (Nat.eq_dec deleteCount0 0) as [D|D];
    [destruct toInsert0 as [|i ins]|].
  - subst. rewrite pushSplice_nothing. destruct H as [H|[H|H]]; congruence.
  - subst. rewrite pushSplice_something by (right; discriminate).
    destruct (pop result) as [[latest earlier]|];
      [destruct (_ =? _)%nat|]; intros Q; now apply app_eq_nil in Q.
  - rewrite pushSplice_something by (left; exact D).
    destruct (pop result) as [[latest earlier]|];
      [destruct (_ =? _)%nat|]; intros Q; now apply app_eq_nil in Q.
Qed.

Lemma diff_from_not_nil bs : forall rest beforeIdx result splices,
  result <> [] ->
  diff_from bs rest beforeIdx result = Some splices -> splices <> [].
Proof.
  induction bs as [|b bs IHb]; intros rest.
  - intros bi R sp H E. rewrite diff_from_nil in E. injection E as <-.
    apply pushSplice_not_nil. now left.
  - induction rest as [|a rest IHa]; intros bi R sp H E.
    + rewrite diff_from_cons_nil in E. injection E as <-.
      apply pushSplice_not_nil. now left.
    + rewrite diff_from_cons_cons in E.
      destruct (compare b a) as [n|]; [|discriminate].
      destruct (n =? 0)%Z; [|destruct (n <? 0)%Z].
      * now apply IHb in E.
      * apply IHb in E; [exact E|]. apply pushSplice_not_nil. now left.
      * apply IHa in E; [exact E|]. apply pushSplice_not_nil. now left.
Qed.

Lemma diff_from_equal bs rest beforeIdx :
  Forall2 (fun b a => compare b a = Num 0) bs rest ->
  diff_from bs rest beforeIdx [] = Some [].
Proof.
  intros F. revert beforeIdx. induction F as [|b a bs rest C F IH]; intros bi.
  - reflexivity.
  - rewrite diff_from_cons_cons, C. cbn. apply IH.
Qed.

Lemma diff_from_nothing bs : forall rest beforeIdx,
  diff_from bs rest beforeIdx [] = Some [] ->
  Forall2 (fun b a => compare b a = Num 0) bs rest.
Proof.
  induction bs as [|b bs IHb]; intros rest.
  - intros bi E. rewrite diff_from_nil in E. injection E as E.
    destruct rest as [|a rest]; [constructor|].
    exfalso. revert E. apply pushSplice_not_nil. right. right. discriminate.
  - induction rest as [|a rest IHa]; intros bi E.
    + rewrite diff_from_cons_nil in E. injection E as E.
      exfalso. revert E. apply pushSplice_not_nil. right. left. discriminate.
    + rewrite diff_from_cons_cons in E.
      destruct (compare b a) as [n|] eqn:C; [|discriminate].
      destruct (n =? 0)%Z eqn:Z0; [|destruct (n <? 0)%Z].
      * apply Z.eqb_eq in Z0. subst n. constructor; [exact C|].
        now apply (IHb rest (bi + 1)).
      * exfalso. eapply (diff_from_not_nil _ _ _ _ []); [|exact E|reflexivity].
        apply pushSplice_not_nil. right. left. discriminate.
      * exfalso. eapply (diff_from_not_nil _ _ _ _ []); [|exact E|reflexivity].
        apply pushSplice_not_nil. right. right. discriminate.
Qed.

(** *** Properties of [sortedDiff] *)

Lemma kept_or_new_equal merged after :
  (forall x y, compare x y = Num 0 -> x = y) ->
  Forall2 kept_or_new merged after -> merged = after.
Proof.
  intros H F. induction F as [|o a merged after K F IH]; [reflexivity|].
  f_equal; [|exact IH]. destruct K as [K|K]; [exact K|now apply H].
Qed.

(** X1. For a [compare] that always answers a number, [sortedDiff] returns,
    and its splices, applied to [before] from the last to the first, give an
    array that agrees with [after] place by place: each element is the one of
    [after], or the element of [before] that [compare] found equal to it.
    When [compare] answers zero on identical elements only, they give [after]
    itself. Neither array needs to be sorted for this. *)
Theorem sortedDiff_splices_rebuild_after (before after : list T) :
  numeric ->
  exists splices merged,
    sortedDiff before after = Some splices
    /\ apply_splices splices before = merged
    /\ Forall2 kept_or_new merged after
    /\ ((forall x y, compare x y = Num 0 -> x = y) -> merged = after).
Proof.
  intros Hnum.
  destruct (diff_from_returns Hnum before after 0 []) as [splices E].
  destruct (diff_from_turns before after [] [] [] splices) as (merged & F & A);
    [intros X; reflexivity|exact E|].
  exists splices, merged. rewrite sortedDiff_is_diff_from.
  split; [exact E|]. split; [|split; [exact F|]].
  - specialize (A []). cbn [app] in A. now rewrite !app_nil_r in A.
  - intros H. now apply kept_or_new_equal.
Qed.

(** X2. No splice of the result is empty, every splice lies within [before],
    and each ends strictly before the next one starts: splices that touch are
    merged into one. *)
Theorem sortedDiff_splices_are_spaced (before after : list T) (splices : list Splice) :
  sortedDiff before after = Some splices ->
  Forall nonempty splices
  /\ Forall (fun s => splice_end s <= List.length before) splices
  /\ (forall l1 s1 s2 l2,
        splices = l1 ++ s1 :: s2 :: l2 -> splice_end s1 < start s2).
Proof.
  rewrite sortedDiff_is_diff_from. intros E.
  pose proof (diff_from_spaced before after 0 [] splices I E) as S.
  cbn [Nat.add] in S.
  destruct (rev splices) as [|s older] eqn:R.
  - apply (f_equal (@rev _)) in R. rewrite rev_involutive in R. subst splices.
    repeat split; try constructor. intros [|? ?] ? ? ? Q; discriminate.
  - destruct S as (N & B & S).
    destruct (strictly_spaced_facts older _ S) as (F1 & F2 & F3).
    assert (Q : splices = rev older ++ [s]).
    { rewrite <- (rev_involutive splices), R. reflexivity. }
    subst splices. repeat split.
    + apply Forall_app. split; [now apply Forall_rev|now constructor].
    + apply Forall_app. split; [|now constructor].
      apply Forall_rev. eapply Forall_impl; [|exact F2].
      cbn. intros s0 L. unfold splice_end in *. lia.
    + intros l1 s1 s2 l2 Q.
      apply (f_equal (@rev _)) in Q.
      rewrite rev_unit, rev_involutive, rev_app_distr in Q. cbn [rev] in Q.
      rewrite <- !app_assoc in Q. cbn [app] in Q.
      destruct (rev l2) as [|x l2'] eqn:L2; cbn [app] in Q.
      * injection Q as Q1 Q2. subst s older. now inversion F2.
      * injection Q as _ Q. now apply (F3 l2' s2 s1 (rev l1)).
Qed.

(** X3. The splices account for the difference in length: the length of
    [before] plus everything inserted is the length of [after] plus
    everything deleted. *)
Theorem sortedDiff_accounts_for_lengths (before after : list T) (splices : list Splice) :
  sortedDiff before after = Some splices ->
  List.length before + total_inserted splices
  = List.length after + total_deleted splices.
Proof.
  rewrite sortedDiff_is_diff_from. intros E.
  pose proof (diff_from_totals before after 0 [] splices E) as H.
  unfold total_inserted, total_deleted in *. cbn in H. lia.
Qed.

(** X4. The result has no splice exactly when the two arrays have the same
    length and [compare] answers zero at every place. *)
Theorem sortedDiff_empty_iff_equal (before after : list T) :
  sortedDiff before after = Some []
  <-> Forall2 (fun b a => compare b a = Num 0) before after.
Proof.
  rewrite sortedDiff_is_diff_from. split.
  - apply diff_from_nothing.
  - apply diff_from_equal.
Qed.

(** X5. With an empty [before] the result is one splice inserting all of
    [after] at 0; with an empty [after] it is one splice deleting all of
    [before]; in both cases there is no splice when the other array is empty
    too. [compare] is not called. *)
Theorem sortedDiff_of_empty (l : list T) :
  sortedDiff [] l
  = Some (match l with [] => [] | _ :: _ => [mkSplice 0 0 l] end)
  /\ sortedDiff l []
     = Some (match l with [] => [] | _ :: _ => [mkSplice 0 (List.length l) []] end).
Proof.
  rewrite !sortedDiff_is_diff_from. split.
  - rewrite diff_from_nil. now destruct l.
  - destruct l as [|x l]; [reflexivity|]. now rewrite diff_from_cons_nil.
Qed.

(** X6. When [compare] answers [NaN] for the two elements the loop stands
    at, none of the three tests holds, no index moves, and the loop returns
    nothing however many iterations it is given. *)
Theorem sortedDiff_loops_on_NaN
    (before after : list T) (beforeIdx afterIdx : nat) (b a : T) :
  nth_error before beforeIdx = Some b ->
  nth_error after afterIdx = Some a ->
  compare b a = NaN ->
  (forall fuel result,
     sortedDiff_loop fuel before after beforeIdx afterIdx result = None)
  /\ (beforeIdx = 0 -> afterIdx = 0 -> sortedDiff before after = None).
Proof.
  intros Hb Ha Hn. split.
  - now apply (loop_stuck_on_NaN before after beforeIdx afterIdx b a).
  - intros -> ->. unfold sortedDiff.
    now apply (loop_stuck_on_NaN before after 0 0 b a).
Qed.

End WithElements.

Arguments mkSplice {T}.
Arguments start {T}.
Arguments deleteCount {T}.
Arguments toInsert {T}.
Arguments apply_splices {T}.
Arguments splice_end {T}.

End Arrays.

(** ** More on the reader: mixed queues, falsy errors, disposed listeners *)

Module ReaderLife.
Import Reader.
Section WithMessages.

Variable Message : Type.
Variable JSON_parse : string -> option Message.
Variable DataCallback : Type.
Variable same_callback : DataCallback -> DataCallback -> bool.

Local Abbreviation replay := (Reader.replay Message JSON_parse DataCallback).
Local Abbreviation replay_event := (Reader.replay_event Message JSON_parse DataCallback).
Local Abbreviation run := (Reader.run JSON_parse same_callback).
Local Abbreviation perform := (Reader.perform JSON_parse same_callback).
Local Abbreviation Reader := (WebSocketMessageReader DataCallback).

(** Something the socket reports before anyone listens: a message, with the
    value its text decodes to when it does, or an error. *)
Inductive Arrival : Type :=
| ArrivedMessage (text : string) (data : Message)
| ArrivedError (e : unknown).

(** The socket event of an arrival. *)
Definition arrives (a : Arrival) : Action DataCallback :=
  match a with
  | ArrivedMessage text _ => SocketMessage text
  | ArrivedError e => SocketError e
  end.

(** The entry it leaves in [events] while the reader is [initial]. *)
Definition queued (a : Arrival) : BufferedEvent :=
  match a with
  | ArrivedMessage text _ => message_entry text
  | ArrivedError e => error_entry e
  end.

(** What a listening reader fires for it. *)
Definition replayed (cb : DataCallback) (a : Arrival) : Emission Message DataCallback :=
  match a with
  | ArrivedMessage _ data => CallbackInvoked cb data
  | ArrivedError e => ErrorFired e
  end.

(** The message is a non-empty text that decodes to [data]; the error is a
    truthy value. *)
Definition replayable (a : Arrival) : Prop :=
  match a with
  | ArrivedMessage text data => text <> "" /\ JSON_parse text = Some data
  | ArrivedError e => truthy e = true
  end.

(** The states in the order the reader goes through them. *)
Definition rank (s : State) : nat :=
  match s with
  | initial => 0
  | listening => 1
  | closed => 2
  end.

Lemma run_buffers_arrivals arr : forall (c : option DataCallback) evs,
  run (map arrives arr) (mkReader initial c evs)
  = (mkReader initial c (rev (map queued arr) ++ evs), []).
Proof.
  induction arr as [|a arr IH]; intros c evs; [reflexivity|].
  cbn [map Reader.run].
  assert (P : perform (arrives a) (mkReader initial c evs)
              = mkResult (Normal tt) (mkReader initial c (queued a :: evs)) []).
  { destruct a; reflexivity. }
  rewrite P. cbn [after fired]. rewrite IH. cbn [rev map].
  now rewrite <- app_assoc.
Qed.

Lemma replay_event_replayable cb a evs :
  replayable a ->
  replay_event (queued a) (mkReader listening (Some cb) evs)
  = mkResult (Normal tt) (mkReader listening (Some cb) evs) [replayed cb a].
Proof.
  destruct a as [text data|e]; cbn [replayable queued replayed].
  - intros [N D]. unfold Reader.replay_event. cbn [message message_entry].
    destruct text as [|ch text]; [congruence|]. cbn [truthy_string].
    now apply readMessage_listening_ok.
  - intros Tr. unfold Reader.replay_event. cbn [message error error_entry].
    rewrite Tr. apply fireError_listening. now apply truthy_not_nullish.
Qed.

Lemma replay_arrivals cb arr : forall fuel,
  Forall replayable arr ->
  List.length arr <= fuel ->
  replay fuel (mkReader listening (Some cb) (rev (map queued arr)))
  = mkResult (Normal tt) (mkReader listening (Some cb) [])
             (map (replayed cb) arr).
Proof.
  induction arr as [|a arr IH]; intros fuel F L.
  - now rewrite replay_empty.
  - inversion F as [|? ? Ha Harr]; subst.
    destruct fuel as [|fuel]; [cbn in L; lia|]. cbn [map rev].
    rewrite replay_step with (ev := queued a) (rest := rev (map queued arr))
      by apply pop_snoc.
    cbn [state callback]. unfold bind.
    rewrite (replay_event_replayable cb a _ Ha). cbn [completion after fired].
    rewrite (IH fuel Harr) by (cbn in L; lia).
    reflexivity.
Qed.

Lemma replay_up_to_close_entry cb entry (later : list BufferedEvent) arr :
  (forall r, replay_event entry r = fireClose r) ->
  forall fuel,
  Forall replayable arr ->
  List.length later + S (List.length arr) <= fuel ->
  replay fuel
    (mkReader listening (Some cb) (later ++ entry :: rev (map queued arr)))
  = mkResult (Normal tt) (mkReader closed (Some cb) [])
             (map (replayed cb) arr ++ [CloseFired]).
Proof.
  intros Hentry. induction arr as [|a arr IH]; intros fuel F L.
  - destruct fuel as [|fuel]; [lia|]. cbn [map rev].
    rewrite replay_step with (ev := entry) (rest := later) by apply pop_snoc.
    cbn [state callback]. unfold bind. rewrite Hentry, fireClose_listening.
    cbn [completion after fired].
    rewrite replay_closed by lia. reflexivity.
  - inversion F as [|? ? Ha Harr]; subst.
    destruct fuel as [|fuel]; [lia|]. cbn [map rev].
    replace (later ++ entry :: rev (map queued arr) ++ [queued a])
      with ((later ++ entry :: rev (map queued arr)) ++ [queued a])
      by (now rewrite <- app_assoc).
    rewrite replay_step with (ev := queued a)
                             (rest := later ++ entry :: rev (map queued arr))
      by apply pop_snoc.
    cbn [state callback]. unfold bind.
    rewrite (replay_event_replayable cb a _ Ha). cbn [completion after fired].
    rewrite (IH fuel Harr) by (cbn in L; lia).
    reflexivity.
Qed.

Lemma run_listen_on_queue cb evs :
  run [Listen cb] (mkReader initial None evs)
  = (after (replay (List.length evs) (mkReader listening (Some cb) evs)),
     fired (replay (List.length evs) (mkReader listening (Some cb) evs))).
Proof.
  cbn [Reader.run].
  destruct (perform_listen Message JSON_parse DataCallback same_callback cb
              (mkReader initial None evs)) as [-> ->].
  rewrite listen_initial. cbn -[Reader.replay]. now rewrite app_nil_r.
Qed.

(** Outside [initial] an action leaves the queue alone and does not go back. *)
Lemma perform_keeps_queue a (r : Reader) :
  state r <> initial ->
  events (after (perform a r)) = events r
  /\ state (after (perform a r)) <> initial.
Proof.
  intros H. destruct a as [m|e|code reason|cb|h]; cbn [Reader.perform];
    unfold socket_onMessage, socket_onError.
  - destruct (readMessage_not_initial Message JSON_parse DataCallback m r H)
      as (E & S & _). split; [exact E|now rewrite S].
  - destruct (fireError_not_initial Message DataCallback e r H) as (E & S & _).
    split; [exact E|now rewrite S].
  - destruct r as [[] c evs]; [contradiction| |];
      unfold socket_onClose, bind; destruct (negb (code =? 1000)%Z); cbn;
      split; trivial; discriminate.
  - destruct r as [[] c evs]; [contradiction| |]; cbn; split; trivial; discriminate.
  - destruct r as [st [f|] evs]; unfold dispose, bind; cbn in *;
      [destruct (same_callback f (captured _ h)); cbn|]; split; trivial.
Qed.

Lemma perform_moves_forward a (r : Reader) :
  rank (state r) <= rank (state (after (perform a r))).
Proof.
  destruct (state r) eqn:S; cbn [rank]; [lia| |].
  - destruct (perform_keeps_queue a r) as [_ N]; [congruence|].
    destruct (state (after (perform a r))); cbn; [contradiction|lia|lia].
  - destruct (perform_closes_once Message JSON_parse DataCallback same_callback a r)
      as (_ & _ & C).
    destruct (C S) as [_ ->]. cbn. lia.
Qed.

Lemma run_keeps_queue actions : forall r : Reader,
  state r <> initial ->
  events (fst (run actions r)) = events r
  /\ state (fst (run actions r)) <> initial.
Proof.
  induction actions as [|a actions IH]; intros r H; [now split|].
  cbn [Reader.run].
  destruct (perform_keeps_queue a r H) as [E N].
  destruct (IH _ N) as [E' N'].
  destruct (Reader.run JSON_parse same_callback actions (after (perform a r)))
    as [r2 out]. cbn [fst] in *. split; [congruence|exact N'].
Qed.

Lemma run_moves_forward actions : forall r : Reader,
  rank (state r) <= rank (state (fst (run actions r))).
Proof.
  induction actions as [|a actions IH]; intros r; [cbn; lia|].
  cbn [Reader.run].
  pose proof (perform_moves_forward a r) as P.
  specialize (IH (after (perform a r))).
  destruct (Reader.run JSON_parse same_callback actions (after (perform a r)))
    as [r2 out]. cbn [fst] in *. lia.
Qed.

(** X7. Messages and errors that arrive before [listen] are replayed by it
    in the order they arrived, whatever their mix: each message (a non-empty
    JSON text) as a call of the callback on its decoded value, each error (a
    truthy value) as an error event. The queue is empty afterwards. *)
Theorem listen_replays_messages_and_errors_in_order
    (arr : list Arrival) (cb : DataCallback) :
  Forall replayable arr ->
  run (map arrives arr ++ [Listen cb]) new_reader
  = (mkReader listening (Some cb) [], map (replayed cb) arr).
Proof.
  intros F. rewrite Reader.run_app. unfold new_reader.
  rewrite run_buffers_arrivals, app_nil_r. cbn [fst snd app].
  rewrite run_listen_on_queue.
  rewrite replay_arrivals by (trivial; now rewrite length_rev, length_map).
  reflexivity.
Qed.

(** X8. An error event whose value is falsy ([undefined], [null], [false],
    [0], the empty string) and that arrives before [listen] is replayed as a
    close: [listen] replays what arrived before it, then fires the close
    event and leaves the reader [closed]; the error itself and everything
    that arrived after it are never delivered. *)
Theorem falsy_error_is_replayed_as_close
    (earlier later : list Arrival) (e : unknown) (cb : DataCallback) :
  Forall replayable earlier ->
  truthy e = false ->
  run (map arrives earlier ++ SocketError e :: map arrives later ++ [Listen cb])
    new_reader
  = (mkReader closed (Some cb) [],
     map (replayed cb) earlier ++ [CloseFired]).
Proof.
  intros F Tr.
  replace (map arrives earlier ++ SocketError e :: map arrives later ++ [Listen cb])
    with (map arrives (earlier ++ ArrivedError e :: later) ++ [Listen cb])
    by (rewrite map_app; cbn [map arrives]; now rewrite <- app_assoc).
  rewrite Reader.run_app. unfold new_reader.
  rewrite run_buffers_arrivals, app_nil_r. cbn [fst snd app].
  rewrite run_listen_on_queue.
  rewrite map_app, rev_app_distr. cbn [map rev queued]. rewrite <- app_assoc.
  cbn [app].
  rewrite (replay_up_to_close_entry cb (error_entry e) (rev (map queued later)) earlier).
  - reflexivity.
  - intros r. unfold Reader.replay_event. cbn [message error error_entry].
    now rewrite Tr.
  - exact F.
  - rewrite length_app, !length_rev, !length_map. cbn [List.length].
    rewrite length_rev, length_map. lia.
Qed.

(** X9. Disposing the handle of the listener in use empties the callback
    slot and leaves the reader [listening]. From then on every message that
    arrives is lost and its handler throws: a [TypeError] when the text
    decodes (the empty slot is called), a [SyntaxError] when it does not.
    Nothing is queued. A socket error still fires its error event when its
    value is neither [undefined] nor [null]; for those two the handler throws
    a [TypeError] and fires nothing. The close still fires. *)
Theorem disposed_listener_makes_messages_throw
    (cb : DataCallback) (evs : list BufferedEvent) :
  same_callback cb cb = true ->
  let r := mkReader listening (Some cb) evs in
  let r' := mkReader listening None evs in
  @dispose Message _ same_callback (mkDisposable cb) r = mkResult (Normal tt) r' []
  /\ (forall m d,
        JSON_parse m = Some d ->
        readMessage JSON_parse m r' = mkResult (Throw TypeError) r' [])
  /\ (forall m,
        JSON_parse m = None ->
        readMessage JSON_parse m r' = mkResult (Throw SyntaxError) r' [])
  /\ (forall msgs, run (map SocketMessage msgs) r' = (r', []))
  /\ (forall e, nullish e = false ->
        fireError e r' = mkResult (Normal tt) r' [@ErrorFired Message _ e])
  /\ (forall e, nullish e = true ->
        @fireError Message _ e r' = mkResult (Throw TypeError) r' [])
  /\ (forall code reason,
        close_count (fired (@socket_onClose Message _ code reason r')) = 1).
Proof.
  intros Hsame r r'. split; [|split; [|split; [|split; [|split; [|split]]]]].
  - unfold r. rewrite dispose_stored, Hsame. reflexivity.
  - intros m d H. unfold readMessage, bind, parse, call_callback. cbn.
    now rewrite H.
  - intros m H. now apply readMessage_listening_undecodable.
  - intros msgs. induction msgs as [|m msgs IH]; [reflexivity|].
    cbn [map Reader.run Reader.perform]. unfold socket_onMessage.
    assert (P : after (readMessage JSON_parse m r') = r'
                /\ fired (readMessage JSON_parse m r') = []).
    { unfold readMessage, bind, parse, call_callback. cbn.
      destruct (JSON_parse m); cbn; split; reflexivity. }
    destruct P as [-> ->]. now rewrite IH.
  - intros e H. now apply fireError_listening.
  - intros e H. now apply fireError_listening_nullish.
  - intros code reason. unfold r'. rewrite socket_onClose_listening.
    destruct (code =? 1000)%Z; reflexivity.
Qed.

(** X10. The reader only moves forward, [initial] to [listening] to
    [closed], in every run of socket events and consumer calls; and once it
    has left [initial] nothing is queued any more: [events] stays as it is. *)
Theorem reader_only_moves_forward (actions : list (Action DataCallback)) (r : Reader) :
  rank (state r) <= rank (state (fst (run actions r)))
  /\ (state r <> initial ->
      events (fst (run actions r)) = events r
      /\ state (fst (run actions r)) <> initial).
Proof.
  split; [apply run_moves_forward|apply run_keeps_queue].
Qed.

(** X11. A message that is not JSON and arrives while the reader listens
    makes its own handler throw a [SyntaxError] and changes nothing: the
    messages before and after it are delivered as usual. (Queued before
    [listen], the same message stops the replay.) *)
Theorem undecodable_live_message_is_skipped
    (cb : DataCallback) (evs : list BufferedEvent)
    (bad : string) (earlier later : list string) (ds ds' : list Message) :
  JSON_parse bad = None ->
  map JSON_parse earlier = map Some ds ->
  map JSON_parse later = map Some ds' ->
  let r := mkReader listening (Some cb) evs in
  readMessage JSON_parse bad r = mkResult (Throw SyntaxError) r []
  /\ run (map SocketMessage earlier ++ SocketMessage bad :: map SocketMessage later) r
     = (r, map (CallbackInvoked cb) (ds ++ ds')).
Proof.
  intros Hbad Hb Ha r.
  assert (B : readMessage JSON_parse bad r = mkResult (Throw SyntaxError) r [])
    by now apply readMessage_listening_undecodable.
  split; [exact B|].
  rewrite Reader.run_app.
  unfold r. rewrite (run_delivers_live_messages _ _ _ _ cb evs earlier ds Hb).
  cbn [fst snd Reader.run Reader.perform]. unfold socket_onMessage.
  fold r. rewrite B. cbn [after fired app]. unfold r.
  rewrite (run_delivers_live_messages _ _ _ _ cb evs later ds' Ha).
  now rewrite map_app.
Qed.

End WithMessages.

Arguments ArrivedMessage {Message}.
Arguments ArrivedError {Message}.
Arguments arrives {Message DataCallback}.
Arguments replayed {Message DataCallback}.

End ReaderLife.

(** ** More on the writer and on forwarding *)

Module Relay.
Section WithSockets.

Variable Message : Type.
Variable JSON_parse : string -> option Message.
Variable JSON_stringify : Message -> Outcome string.
Variable Socket : Type.
Variable socket_send : string -> Socket -> Outcome unit * Socket.

Local Abbreviation write := (Writer.write JSON_stringify socket_send).
Local Abbreviation write_all := (Writer.write_all JSON_stringify socket_send).
Local Abbreviation Writer := (Writer.WebSocketMessageWriter Socket).


Section Forwarding.

Context {W : Type} {target_writer : Connection.MessageWriter Message W}.

Local Abbreviation run := (Connection.run JSON_parse).

(** The reader's side of a close that comes before [listen]. *)
Lemma reader_closed_before_listen l queued code reason arriving :
  snd (Reader.run JSON_parse (Connection.same_listener Message)
         (map Reader.SocketMessage queued
            ++ Reader.SocketClose code reason
            :: Reader.Listen l :: map Reader.SocketMessage arriving)
         Reader.new_reader)
  = [].
Proof.
  change (Reader.SocketClose code reason
            :: Reader.Listen l :: map Reader.SocketMessage arriving)
    with ([Reader.SocketClose code reason]
            ++ Reader.Listen l :: map Reader.SocketMessage arriving).
  rewrite !Reader.run_app. unfold Reader.new_reader.
  rewrite Reader.run_buffers_messages, app_nil_r. cbn [fst snd app].
  set (r0 := Reader.mkReader Reader.initial None _).
  assert (P : exists evs,
            Reader.run JSON_parse (Connection.same_listener Message)
              [Reader.SocketClose code reason] r0
            = (Reader.mkReader Reader.closed None evs, [])).
  { unfold r0. cbn [Reader.run Reader.perform].
    unfold Reader.socket_onClose, bind.
    destruct (negb (code =? 1000)%Z); cbn; eexists; reflexivity. }
  destruct P as [evs ->]. cbn [fst snd app].
  now apply Reader.run_closes_once.
Qed.

Lemma run_with_forward pre fresh t map post (sys : Connection.System Message) :
  run (List.map Connection.OnSocket pre
         ++ Connection.Forward fresh t map :: List.map Connection.OnSocket post) sys
  = run (List.map Connection.OnSocket
           (pre ++ Reader.Listen (Connection.mkListener fresh t (Connection.default_map Message map))
                :: post)) sys.
Proof.
  rewrite map_app. cbn [List.map].
  rewrite !Connection.run_events_app. now rewrite Connection.forward_is_listen.
Qed.

(** X13. When the socket closes before [forward] is called, [forward] has
    no effect: whatever was queued before the close and whatever arrives
    after it, no writer is ever written to. *)
Theorem forward_after_socket_close_writes_nothing
    (queued arriving : list string) (code : Z) (reason : string)
    (fresh : nat) (t : Connection.ConnectionRef) (map : option (Message -> Message))
    (ws : Connection.ConnectionRef -> W) (t' : Connection.ConnectionRef) :
  Connection.writers
    (fst (run (List.map Connection.socket_message queued
                 ++ Connection.OnSocket (Reader.SocketClose code reason)
                 :: Connection.Forward fresh t map
                 :: List.map Connection.socket_message arriving)
            (Connection.createConnection Reader.new_reader ws)))
    t'
  = ws t'.
Proof.
  set (l := Connection.mkListener fresh t (Connection.default_map Message map)).
  assert (E : List.map Connection.socket_message queued
                ++ Connection.OnSocket (Reader.SocketClose code reason)
                :: Connection.Forward fresh t map
                :: List.map Connection.socket_message arriving
              = List.map Connection.OnSocket
                  (List.map Reader.SocketMessage queued
                     ++ [Reader.SocketClose code reason])
                  ++ Connection.Forward fresh t map
                  :: List.map Connection.OnSocket
                       (List.map Reader.SocketMessage arriving)).
  { unfold Connection.socket_message. rewrite map_app, !map_map. cbn [List.map].
    now rewrite <- app_assoc. }
  rewrite E, run_with_forward, Connection.run_on_socket. cbn [fst].
  rewrite <- app_assoc. cbn [app].
  change (Connection.reader (Connection.createConnection Reader.new_reader ws))
    with (@Reader.new_reader (Connection.Listener Message)).
  fold l.
  rewrite (reader_closed_before_listen l queued code reason arriving).
  reflexivity.
Qed.

(** The writer of [t] after a [forward] on a connection whose reader is new,
    as far as the messages decode. *)
Lemma forwarded_to_target fresh t map queued arriving ms ms'
    (ws : Connection.ConnectionRef -> W) :
  JSON_parse "" = None ->
  List.map JSON_parse queued = List.map Some ms ->
  List.map JSON_parse arriving = List.map Some ms' ->
  Connection.writers
    (fst (run (List.map Connection.socket_message queued
                 ++ Connection.Forward fresh t map
                 :: List.map Connection.socket_message arriving)
            (Connection.createConnection Reader.new_reader ws)))
    t
  = Connection.writes_in_order (Connection.default_map Message map) (ms ++ ms') (ws t).
Proof.
  intros Hempty Hq Ha.
  set (l := Connection.mkListener fresh t (Connection.default_map Message map)).
  set (c := Connection.createConnection Reader.new_reader ws).
  assert (E : List.map Connection.socket_message queued
                ++ Connection.Forward fresh t map
                :: List.map Connection.socket_message arriving
              = List.map Connection.OnSocket (List.map Reader.SocketMessage queued)
                  ++ Connection.Forward fresh t map
                  :: List.map Connection.OnSocket
                       (List.map Reader.SocketMessage arriving)).
  { unfold Connection.socket_message. now rewrite !map_map. }
  rewrite E, run_with_forward, Connection.run_on_socket. cbn [fst].
  change (Connection.reader c) with (@Reader.new_reader (Connection.Listener Message)).
  fold l.
  rewrite (Reader.run_buffer_listen_live Message JSON_parse _
             (Connection.same_listener Message) l Hempty queued arriving ms ms' Hq Ha).
  cbn [snd].
  destruct (Connection.dispatch_deliveries Message l (ms ++ ms') c) as (_ & _ & _ & Wt & _).
  exact Wt.
Qed.

End Forwarding.

(** X14. Forwarding into a connection made by [createWebSocketConnection]:
    the messages received, decoded and passed through [map], are handed one
    by one to the [write] of the target's [WebSocketMessageWriter], so its
    state is that of the same run of [write] calls on a new writer, and its
    error counter is the number of those writes that failed. *)
Theorem forward_relays_into_websocket_writer
    (fresh : nat) (t : Connection.ConnectionRef) (map : option (Message -> Message))
    (queued arriving : list string) (ms ms' : list Message)
    (sockets : Connection.ConnectionRef -> Socket) :
  JSON_parse "" = None ->
  List.map JSON_parse queued = List.map Some ms ->
  List.map JSON_parse arriving = List.map Some ms' ->
  let relayed := List.map (Connection.default_map Message map) (ms ++ ms') in
  let target :=
    Connection.writers
      (fst (Connection.run JSON_parse
              (target_writer := Launch.websocket_writer Message JSON_stringify
                                  Socket socket_send)
              (List.map Connection.socket_message queued
                 ++ Connection.Forward fresh t map
                 :: List.map Connection.socket_message arriving)
              (Launch.createWebSocketConnection Message Socket sockets)))
      t in
  target = after (write_all relayed (Writer.new_writer (sockets t)))
  /\ Writer.errorCount target
     = List.length (Writer.failures Message JSON_stringify Socket socket_send
                      relayed (sockets t)).
Proof.
  intros Hempty Hq Ha relayed target.
  assert (E : target = after (write_all relayed (Writer.new_writer (sockets t)))).
  { unfold target, Launch.createWebSocketConnection.
    rewrite (forwarded_to_target
               (target_writer := Launch.websocket_writer Message JSON_stringify
                                   Socket socket_send)
               fresh t map queued arriving ms ms' _ Hempty Hq Ha).
    apply Launch.writes_in_order_is_write_all. }
  split; [exact E|]. rewrite E.
  destruct (Writer.write_all_spec Message JSON_stringify Socket socket_send
              relayed 0 (sockets t)) as [sock' S].
  unfold Writer.new_writer. rewrite S. reflexivity.
Qed.

End WithSockets.
End Relay.

(** ** The added properties at work on concrete inputs *)

Module MoreSamples.

(** Integers compared by their difference. *)
Definition by_difference (x y : Z) : number := Num (x - y).

(** A [compare] that answers [NaN]. *)
Definition undecided (x y : Z) : number := NaN.

(** X1, at an input: [[1; 3; 5]] against [[1; 2; 5; 7]]. *)
Lemma sortedDiff_splices_rebuild_after_witness :
  Arrays.numeric Z by_difference
  /\ exists splices,
       Arrays.sortedDiff Z by_difference [1; 3; 5]%Z [1; 2; 5; 7]%Z = Some splices
       /\ Arrays.apply_splices splices [1; 3; 5]%Z = [1; 2; 5; 7]%Z.
Proof.
  assert (N : Arrays.numeric Z by_difference) by (intros x y; discriminate).
  split; [exact N|].
  destruct (Arrays.sortedDiff_splices_rebuild_after Z by_difference
              [1; 3; 5]%Z [1; 2; 5; 7]%Z N)
    as (splices & merged & E & A & _ & H).
  exists splices. split; [exact E|].
  rewrite A. apply H. intros x y Q. injection Q as Q. lia.
Defined.

(** X2, at the same input: two splices, the second starting after the first
    has ended. *)
Lemma sortedDiff_splices_are_spaced_witness :
  Arrays.sortedDiff Z by_difference [1; 3; 5]%Z [1; 2; 5; 7]%Z
  = Some [Arrays.mkSplice 1 1 [2]%Z; Arrays.mkSplice 3 0 [7]%Z]
  /\ Forall (fun s => Arrays.splice_end s <= 3)
       [Arrays.mkSplice 1 1 [2]%Z; Arrays.mkSplice 3 0 [7]%Z].
Proof.
  split; [reflexivity|].
  exact (proj1 (proj2
    (Arrays.sortedDiff_splices_are_spaced Z by_difference
       [1; 3; 5]%Z [1; 2; 5; 7]%Z _ eq_refl))).
Defined.

(** X3, at the same input: 3 + 2 = 4 + 1. *)
Lemma sortedDiff_accounts_for_lengths_witness :
  3 + Arrays.total_inserted Z [Arrays.mkSplice 1 1 [2]%Z; Arrays.mkSplice 3 0 [7]%Z]
  = 4 + Arrays.total_deleted Z [Arrays.mkSplice 1 1 [2]%Z; Arrays.mkSplice 3 0 [7]%Z].
Proof.
  exact (Arrays.sortedDiff_accounts_for_lengths Z by_difference
           [1; 3; 5]%Z [1; 2; 5; 7]%Z _ eq_refl).
Defined.

(** X6, at an input: one element each, and [NaN]. *)
Lemma sortedDiff_loops_on_NaN_witness :
  Arrays.sortedDiff_loop Z undecided 1000 [1]%Z [2]%Z 0 0 [] = None
  /\ Arrays.sortedDiff Z undecided [1]%Z [2]%Z = None.
Proof.
  split.
  - exact (proj1
      (Arrays.sortedDiff_loops_on_NaN Z undecided [1]%Z [2]%Z 0 0 1%Z 2%Z
         eq_refl eq_refl eq_refl) 1000 []).
  - exact (proj2
      (Arrays.sortedDiff_loops_on_NaN Z undecided [1]%Z [2]%Z 0 0 1%Z 2%Z
         eq_refl eq_refl eq_refl) eq_refl eq_refl).
Defined.

Import Reader.

(** X7, at an input: a message, an error, a message. *)
Lemma listen_replays_messages_and_errors_in_order_witness :
  run Sample.parse_integer Nat.eqb
    (map ReaderLife.arrives
       [ReaderLife.ArrivedMessage "1" 1%Z;
        ReaderLife.ArrivedError (JsString "boom");
        ReaderLife.ArrivedMessage "2" 2%Z]
       ++ [Listen 7])
    new_reader
  = (mkReader listening (Some 7) [],
     [CallbackInvoked 7 1%Z; ErrorFired (JsString "boom"); CallbackInvoked 7 2%Z]).
Proof.
  apply (ReaderLife.listen_replays_messages_and_errors_in_order
           Z Sample.parse_integer nat Nat.eqb).
  repeat constructor; discriminate.
Defined.

(** X8, at an input: the socket reports the error [undefined] between two
    messages. *)
Lemma falsy_error_is_replayed_as_close_witness :
  run Sample.parse_integer Nat.eqb
    (map ReaderLife.arrives [ReaderLife.ArrivedMessage "1" 1%Z]
       ++ SocketError JsUndefined
       :: map ReaderLife.arrives [ReaderLife.ArrivedMessage "2" 2%Z]
       ++ [Listen 7])
    new_reader
  = (mkReader closed (Some 7) [], [CallbackInvoked 7 1%Z; CloseFired]).
Proof.
  apply (ReaderLife.falsy_error_is_replayed_as_close
           Z Sample.parse_integer nat Nat.eqb).
  - repeat constructor; discriminate.
  - reflexivity.
Defined.

(** X9, at an input: the listener 7 is disposed, then ["1"] arrives, then
    the socket reports the errors ["reset"] and [undefined]. *)
Lemma disposed_listener_makes_messages_throw_witness :
  Nat.eqb 7 7 = true
  /\ readMessage Sample.parse_integer "1" (mkReader listening (@None nat) [])
     = mkResult (Throw TypeError) (mkReader listening None []) []
  /\ @fireError Z nat (JsString "reset") (mkReader listening None [])
     = mkResult (Normal tt) (mkReader listening None []) [ErrorFired (JsString "reset")]
  /\ @fireError Z nat JsUndefined (mkReader listening None [])
     = mkResult (Throw TypeError) (mkReader listening None []) [].
Proof.
  split; [reflexivity|].
  destruct (ReaderLife.disposed_listener_makes_messages_throw
              Z Sample.parse_integer nat Nat.eqb 7 [] eq_refl)
    as (_ & M & _ & _ & E & U & _).
  split; [exact (M "1" 1%Z eq_refl)|].
  split; [exact (E (JsString "reset") eq_refl)|exact (U JsUndefined eq_refl)].
Defined.

(** X11, at an input: ["{"] arrives between ["1"] and ["2"]. *)
Lemma undecodable_live_message_is_skipped_witness :
  run Sample.parse_integer Nat.eqb
    (map SocketMessage ["1"] ++ SocketMessage "{" :: map SocketMessage ["2"])
    (mkReader listening (Some 7) [])
  = (mkReader listening (Some 7) [], map (CallbackInvoked 7) ([1] ++ [2])%Z).
Proof.
  exact (proj2
    (ReaderLife.undecodable_live_message_is_skipped
       Z Sample.parse_integer nat Nat.eqb 7 [] "{" ["1"] ["2"] [1]%Z [2]%Z
       eq_refl eq_refl eq_refl)).
Defined.

(** Integer texts decoded to the messages [Sample.test_stringify] takes. *)
Definition parse_some (s : string) : option (option Z) :=
  option_map Some (Sample.parse_integer s).

(** X14, at an input: ["1"] is queued, ["2"] arrives, the target's socket is
    open: both texts are sent on it. *)
Lemma forward_relays_into_websocket_writer_witness :
  Connection.writers
    (fst (Connection.run parse_some
            (target_writer := Launch.websocket_writer (option Z)
                                Sample.test_stringify Sample.TestSocket
                                Sample.test_send)
            (map Connection.socket_message ["1"]
               ++ Connection.Forward 0 5 None
               :: map Connection.socket_message ["2"])
            (Launch.createWebSocketConnection (option Z) Sample.TestSocket
               (fun _ => Sample.mkTestSocket true []))))
    5
  = Writer.mkWriter 0 (Sample.mkTestSocket true ["1"; "2"]).
Proof.
  exact (proj1
    (Relay.forward_relays_into_websocket_writer (option Z) parse_some
       Sample.test_stringify Sample.TestSocket Sample.test_send
       0 5 None ["1"] ["2"] [Some 1%Z] [Some 2%Z]
       (fun _ => Sample.mkTestSocket true [])
       eq_refl eq_refl eq_refl)).
Defined.

End MoreSamples.
